(** * Agent sidecar composition (pkg/agentconfig/container.go)

    A shallow embedding of the functions that assemble the traffic-agent
    container of a Pod: [AgentContainer], [EachContainer],
    [appendAppContainerVolumeMounts], [appendAppContainerEnv],
    [appendAppContainerEnvFrom] and [getIgnoredVolumeMounts], followed by
    the properties of the composition.

    Go strings are byte strings and are modelled by [string]; slices are
    lists ([append] adds at the end, a nil slice and an empty slice are
    both the empty list); [map[string]string] is a [gmap string string]
    and [map[string]struct{}] a [gset string].  Pointers to records that
    are only read ([*core.Pod], [*Sidecar], [*Container]) are modelled by
    the records themselves. *)

From Stdlib Require Import ZArith Ascii String DecimalString.
From stdpp Require Import base gmap sets list strings.

Local Open Scope Z_scope.

(** ** The Go standard library functions used by the source *)

Module strings.

(** [strings.HasPrefix(s, prefix)]: [s] is at least as long as [prefix]
  and its first bytes are those of [prefix]. *)
Fixpoint HasPrefix (s prefix : string) {struct prefix} : bool :=
  match prefix, s with
  | EmptyString, _ => true
  | String p prefix', String c s' => Ascii.eqb c p && HasPrefix s' prefix'
  | String _ _, EmptyString => false
  end.

(** [s[n:]], for [n] at most the length of [s]. *)
Fixpoint sliceFrom (n : nat) (s : string) : string :=
  match n, s with
  | S n', String _ s' => sliceFrom n' s'
  | _, _ => s
  end.

(** [strings.TrimPrefix(s, prefix)]: [s] without the leading [prefix],
  or [s] itself when it does not start with [prefix]. *)
Definition TrimPrefix (s prefix : string) : string :=
  if HasPrefix s prefix then sliceFrom (String.length prefix) s else s.

(** [strings.Split(s, ",")] for the one-byte separator the source uses:
    the pieces between the separators, of which there is always at
    least one (the empty string splits into one empty piece). *)
Fixpoint splitByte (sep : ascii) (cur : string) (s : string) : list string :=
  match s with
  | EmptyString => [String.rev cur]
  | String c r =>
      if Ascii.eqb c sep
      then String.rev cur :: splitByte sep EmptyString r
      else splitByte sep (String c cur) r
  end.

Definition Split (s : string) (sep : ascii) : list string :=
  splitByte sep EmptyString s.

(** White space in the sense of [unicode.IsSpace], on the UTF-8 bytes of
    a Go string: the six ASCII characters, U+0085 and U+00A0 (two
    bytes), and U+1680, U+2000..U+200A, U+2028, U+2029, U+202F, U+205F
    and U+3000 (three bytes). *)
Definition asciiSpace (c : ascii) : bool :=
  let n := N_of_ascii c in
  ((9 <=? n) && (n <=? 13) || (n =? 32))%N.

Definition space2 (a b : ascii) : bool :=
  let x := N_of_ascii a in let y := N_of_ascii b in
  ((x =? 194) && ((y =? 133) || (y =? 160)))%N.

Definition space3 (a b c : ascii) : bool :=
  let x := N_of_ascii a in let y := N_of_ascii b in let z := N_of_ascii c in
  ((x =? 225) && (y =? 154) && (z =? 128)
   || (x =? 226) && (y =? 128)
        && ((128 <=? z) && (z <=? 138) || (z =? 168) || (z =? 169) || (z =? 175))
   || (x =? 226) && (y =? 129) && (z =? 159)
   || (x =? 227) && (y =? 128) && (z =? 128))%N.

(** [strings.TrimLeftFunc(s, unicode.IsSpace)] on the bytes of [s]. *)
Fixpoint trimLeft (s : list ascii) : list ascii :=
  match s with
  | [] => []
  | a :: r =>
      if asciiSpace a then trimLeft r
      else match r with
           | b :: r' =>
               if space2 a b then trimLeft r'
               else match r' with
                    | c :: r'' => if space3 a b c then trimLeft r'' else s
                    | [] => s
                    end
           | [] => s
           end
  end.

(** [strings.TrimRightFunc(s, unicode.IsSpace)], on the reversed bytes:
    the last rune of the string is read from its last byte backwards. *)
Fixpoint trimRightRev (s : list ascii) : list ascii :=
  match s with
  | [] => []
  | c :: r =>
      if asciiSpace c then trimRightRev r
      else match r with
           | b :: r' =>
               if space2 b c then trimRightRev r'
               else match r' with
                    | a :: r'' => if space3 a b c then trimRightRev r'' else s
                    | [] => s
                    end
           | [] => s
           end
  end.

(** [strings.TrimSpace(s)]. *)
Definition TrimSpace (s : string) : string :=
  string_of_list_ascii
    (List.rev (trimRightRev (List.rev (trimLeft (list_ascii_of_string s))))).

End strings.

Module strconv.

(** [strconv.Itoa(i)]: the decimal representation of [i]. *)
Definition Itoa (i : Z) : string := NilZero.string_of_int (Z.to_int i).

End strconv.

(** [int32(x)] of an integer: its low 32 bits read as a signed number. *)
Definition int32 (x : Z) : Z := (x + 2 ^ 31) mod 2 ^ 32 - 2 ^ 31.

(** ** The Kubernetes records the source reads and builds ([core]) *)

Module core.

Module ObjectFieldSelector.
Record t := mk { APIVersion : string; FieldPath : string }.
End ObjectFieldSelector.

Module ResourceFieldSelector.
Record t := mk { ContainerName : string; Resource : string; Divisor : string }.
End ResourceFieldSelector.

(** [ConfigMapKeySelector] and [SecretKeySelector]. *)
Module KeySelector.
Record t := mk { Name : string; Key : string; Optional : option bool }.
End KeySelector.

Module EnvVarSource.
Record t := mk {
  FieldRef : option ObjectFieldSelector.t;
  ResourceFieldRef : option ResourceFieldSelector.t;
  ConfigMapKeyRef : option KeySelector.t;
  SecretKeyRef : option KeySelector.t }.
End EnvVarSource.

Module EnvVar.
Record t := mk {
  Name : string;
  Value : string;
  ValueFrom : option EnvVarSource.t }.
End EnvVar.

(** [ConfigMapEnvSource] and [SecretEnvSource]. *)
Module EnvSource.
Record t := mk { Name : string; Optional : option bool }.
End EnvSource.

Module EnvFromSource.
Record t := mk {
  Prefix : string;
  ConfigMapRef : option EnvSource.t;
  SecretRef : option EnvSource.t }.
End EnvFromSource.

Module VolumeMount.
Record t := mk {
  Name : string;
  ReadOnly : bool;
  MountPath : string;
  SubPath : string;
  MountPropagation : option string;
  SubPathExpr : string }.
End VolumeMount.

Module ContainerPort.
Record t := mk {
  Name : string;
  ContainerPort : Z;
  Protocol : string }.
End ContainerPort.

Module Probe.
(** Only the [Exec] handler is set by the source. *)
Record t := mk { ExecCommand : option (list string) }.
End Probe.

Module Container.
Record t := mk {
  Name : string;
  Image : string;
  Args : list string;
  Ports : list ContainerPort.t;
  Env : list EnvVar.t;
  EnvFrom : list EnvFromSource.t;
  VolumeMounts : list VolumeMount.t;
  ReadinessProbe : option Probe.t }.
End Container.

(** A Pod, reduced to what the source reads: [ObjectMeta.Annotations]
    and [Spec.Containers]. *)
Module Pod.
Record t := mk {
  Annotations : gmap string string;
  Containers : list Container.t }.
End Pod.

End core.

(** ** The agent configuration ([Sidecar], [Container], [Intercept]) *)

(** Modelled from the spec: the declaration of [Intercept] is not among
    the sources.  Section 3 gives an Intercept Descriptor an integer
    [AgentPort], a [ContainerPortName] and a [Protocol]; the protocol has
    the type of the field of [core.ContainerPort] it is assigned to. *)
Record Intercept := mkIntercept {
  ContainerPortName : string;
  AgentPort : Z;
  Protocol : string }.

(** Modelled from the spec: the declaration of [Container], the
    Per-Container Policy of section 3, is not among the sources. *)
Record Container := mkContainer {
  Name : string;
  EnvPrefix : string;
  MountPoint : string;
  Intercepts : list Intercept }.

(** Modelled from the spec: the declaration of [Sidecar], the Sidecar
    Policy of section 3, is not among the sources; an [APIPort] of zero
    means that the API is disabled. *)
Record Sidecar := mkSidecar {
  AgentImage : string;
  APIPort : Z;
  Containers : list Container }.

(** The package constants the source refers to are declared in a file
    that is not among the sources; they are taken as parameters. *)
Class Constants := {
  ContainerName : string;
  EnvPrefixApp : string;
  EnvPrefixAgent : string;
  EnvAPIPort : string;
  AnnotationVolumeName : string;
  AnnotationMountPoint : string;
  ConfigVolumeName : string;
  ConfigMountPoint : string;
  ExportsVolumeName : string;
  ExportsMountPoint : string }.

(** ** The functions of the source *)

(** Modelled from the spec: the loop of [PortUniqueIntercepts], which is
    declared in a file that is not among the sources.  Section 4.1: later
    intercepts with an agent port that was already emitted are silently
    dropped.  [seen] is the set of the agent ports emitted so far. *)
Fixpoint uniqueFrom (seen : gset Z) (ics : list Intercept) : list Intercept :=
  match ics with
  | [] => []
  | ic :: rest =>
      if decide (AgentPort ic ∈ seen)
      then uniqueFrom seen rest
      else ic :: uniqueFrom ({[AgentPort ic]} ∪ seen) rest
  end.

(** Modelled from the spec: [PortUniqueIntercepts] is called by
    [AgentContainer] but declared in a file that is not among the
    sources.  Section 4.1: the input is one Per-Container Policy's
    intercepts, the output is the order-preserving, first-occurrence-wins
    subset in which each agent port appears at most once; an empty input
    yields an empty output. *)
Definition PortUniqueIntercepts (cn : Container) : list Intercept :=
  uniqueFrom ∅ (Intercepts cn).

(** The inner loop of [EachContainer]: the Pod's containers in their
    order, up to the first one named as the policy ([break]). *)
Fixpoint eachMatch {S : Type} (cns : list core.Container.t) (cc : Container)
    (f : core.Container.t → Container → S → S) (s : S) : S :=
  match cns with
  | [] => s
  | app :: rest =>
      if decide (core.Container.Name app = Name cc)
      then f app cc s
      else eachMatch rest cc f s
  end.

(** [EachContainer(pod, config, f)].  The visitor of the source is a
    closure that updates the variables it captures; here it is a function
    [f app cc] on the state [S] of those variables. *)
Definition EachContainer {S : Type} (pod : core.Pod.t) (config : Sidecar)
    (f : core.Container.t → Container → S → S) (s : S) : S :=
  foldl (λ s cc, eachMatch (core.Pod.Containers pod) cc f s) s (Containers config).

(** [getIgnoredVolumeMounts(annotations)]; the lookup of a key that is
    not in a Go map yields the empty string. *)
Definition getIgnoredVolumeMounts (annotations : gmap string string) : gset string :=
  let vmSlice :=
    strings.Split
      (default EmptyString
         (annotations !! "telepresence.getambassador.io/inject-ignore-volume-mounts"))
      "," in
  foldl (λ ivms vm, {[strings.TrimSpace vm]} ∪ ivms) ∅ vmSlice.

Definition isVrs (s : string) : bool := strings.HasPrefix s "/var/run/secrets/".

(** [vrsAdded()]: the closure reads the variable [mounts], which the loop
    of [appendAppContainerVolumeMounts] assigns at every [append]; it is
    therefore a function of the current value of that variable. *)
Definition vrsAdded (mounts : list core.VolumeMount.t) : bool :=
  existsb (λ m, isVrs (core.VolumeMount.MountPath m)) mounts.

(** [m.MountPath = path] on the loop's copy [m] of a mount. *)
Definition setMountPath (m : core.VolumeMount.t) (path : string) : core.VolumeMount.t :=
  core.VolumeMount.mk (core.VolumeMount.Name m) (core.VolumeMount.ReadOnly m) path
    (core.VolumeMount.SubPath m) (core.VolumeMount.MountPropagation m)
    (core.VolumeMount.SubPathExpr m).

(** One iteration of the loop of [appendAppContainerVolumeMounts]. *)
Definition mountStep (ignoredVolumeMounts : gset string) (cc : Container)
    (mounts : list core.VolumeMount.t) (m : core.VolumeMount.t) : list core.VolumeMount.t :=
  if decide (core.VolumeMount.Name m ∈ ignoredVolumeMounts) then mounts
  else if isVrs (core.VolumeMount.MountPath m) then
    if vrsAdded mounts then mounts else mounts ++ [m]
  else
    mounts ++ [setMountPath m
                 (MountPoint cc +:+ "/" +:+ strings.TrimPrefix (core.VolumeMount.MountPath m) "/")].

Definition appendAppContainerVolumeMounts (app : core.Container.t) (cc : Container)
    (mounts : list core.VolumeMount.t) (annotations : gmap string string)
    : list core.VolumeMount.t :=
  let ignoredVolumeMounts := getIgnoredVolumeMounts annotations in
  foldl (mountStep ignoredVolumeMounts cc) mounts (core.Container.VolumeMounts app).

Definition fieldRefVar (name fieldPath : string) : core.EnvVar.t :=
  core.EnvVar.mk name EmptyString
    (Some (core.EnvVarSource.mk
             (Some (core.ObjectFieldSelector.mk "v1" fieldPath)) None None None)).

Definition plainMount (name path : string) : core.VolumeMount.t :=
  core.VolumeMount.mk name false path EmptyString None EmptyString.

(** The port entry built for one intercept. *)
Definition containerPort (ic : Intercept) : core.ContainerPort.t :=
  core.ContainerPort.mk (ContainerPortName ic) (int32 (AgentPort ic)) (Protocol ic).

Section WithConstants.
Context `{Constants}.

(** [e.Name = EnvPrefixApp + cc.EnvPrefix + e.Name] on the loop's copy. *)
Definition renameEnv (cc : Container) (e : core.EnvVar.t) : core.EnvVar.t :=
  core.EnvVar.mk (EnvPrefixApp +:+ EnvPrefix cc +:+ core.EnvVar.Name e)
    (core.EnvVar.Value e) (core.EnvVar.ValueFrom e).

Definition appendAppContainerEnv (app : core.Container.t) (cc : Container)
    (es : list core.EnvVar.t) : list core.EnvVar.t :=
  foldl (λ es e, es ++ [renameEnv cc e]) es (core.Container.Env app).

Definition renameEnvFrom (cc : Container) (e : core.EnvFromSource.t) : core.EnvFromSource.t :=
  core.EnvFromSource.mk (EnvPrefixApp +:+ EnvPrefix cc +:+ core.EnvFromSource.Prefix e)
    (core.EnvFromSource.ConfigMapRef e) (core.EnvFromSource.SecretRef e).

Definition appendAppContainerEnvFrom (app : core.Container.t) (cc : Container)
    (es : list core.EnvFromSource.t) : list core.EnvFromSource.t :=
  foldl (λ es e, es ++ [renameEnvFrom cc e]) es (core.Container.EnvFrom app).

(** [AgentContainer(pod, config)]; [None] is the nil result. *)
Definition AgentContainer (pod : core.Pod.t) (config : Sidecar) : option core.Container.t :=
  let ports :=
    foldl (λ ports cc,
             foldl (λ ports ic, ports ++ [containerPort ic]) ports (PortUniqueIntercepts cc))
          [] (Containers config) in
  if (length ports =? 0)%nat then None
  else
    let '(evs, efs) :=
      EachContainer pod config
        (λ app cc '(evs, efs),
           (appendAppContainerEnv app cc evs, appendAppContainerEnvFrom app cc efs))
        ([], []) in
    let evs :=
      if 0 <? APIPort config
      then evs ++ [core.EnvVar.mk EnvAPIPort (strconv.Itoa (APIPort config)) None]
      else evs in
    let evs :=
      evs ++ [fieldRefVar (EnvPrefixAgent +:+ "POD_IP") "status.podIP";
              fieldRefVar (EnvPrefixAgent +:+ "NAME") "metadata.name"] in
    let mounts :=
      EachContainer pod config
        (λ app cc mounts,
           appendAppContainerVolumeMounts app cc mounts (core.Pod.Annotations pod))
        [] in
    let mounts :=
      mounts ++ [plainMount AnnotationVolumeName AnnotationMountPoint;
                 plainMount ConfigVolumeName ConfigMountPoint;
                 plainMount ExportsVolumeName ExportsMountPoint] in
    let efs := if (length efs =? 0)%nat then [] else efs in
    Some (core.Container.mk ContainerName (AgentImage config) ["agent"]
            ports evs efs mounts
            (Some (core.Probe.mk (Some ["/bin/stat"; "/tmp/agent/ready"])))).

End WithConstants.

(** ** The vocabulary of the properties *)

(** The intercepts for which [AgentContainer] opens a port: the
    deduplicated intercepts of every policy, concatenated. *)
Definition interceptPorts (config : Sidecar) : list Intercept :=
  Containers config ≫= PortUniqueIntercepts.

(** The first container of [cns], in their order, whose name is [name]. *)
Definition firstNamed (cns : list core.Container.t) (name : string)
    : option core.Container.t :=
  snd <$> list_find (λ app, core.Container.Name app = name) cns.

(** The matches of a Pod and a configuration: for every policy, in the
    order of the policies, the first container named as the policy, if
    there is one. *)
Definition matched (pod : core.Pod.t) (config : Sidecar)
    : list (core.Container.t * Container) :=
  Containers config ≫=
    (λ cc, match firstNamed (core.Pod.Containers pod) (Name cc) with
           | Some app => [(app, cc)]
           | None => []
           end).

(** The visitor that records its calls. *)
Definition recordCall (app : core.Container.t) (cc : Container)
    (calls : list (core.Container.t * Container)) : list (core.Container.t * Container) :=
  calls ++ [(app, cc)].

(** The first intercept of [ics], in their order, whose agent port is [p]. *)
Definition firstWithPort (ics : list Intercept) (p : Z) : option Intercept :=
  snd <$> list_find (λ ic, AgentPort ic = p) ics.

(** No agent port is declared by two different policies of [config]. *)
Definition portsDisjoint (config : Sidecar) : Prop :=
  ∀ i j cc1 cc2 ic1 ic2,
    Containers config !! i = Some cc1 → Containers config !! j = Some cc2 → i ≠ j →
    ic1 ∈ Intercepts cc1 → ic2 ∈ Intercepts cc2 → AgentPort ic1 ≠ AgentPort ic2.

(** Every mount of every matched container with the policy of its match,
    in the order in which the loops reach them. *)
Definition mountWork (pod : core.Pod.t) (config : Sidecar)
    : list (core.VolumeMount.t * Container) :=
  matched pod config ≫= (λ p, (λ m, (m, p.2)) <$> core.Container.VolumeMounts p.1).

(** The mounts accumulated from the matched containers, starting from
    [mounts]. *)
Definition composeMounts (ignored : gset string)
    (work : list (core.VolumeMount.t * Container)) (mounts : list core.VolumeMount.t)
    : list core.VolumeMount.t :=
  foldl (λ mounts w, mountStep ignored w.2 mounts w.1) mounts work.

Definition composedMounts (pod : core.Pod.t) (config : Sidecar) : list core.VolumeMount.t :=
  composeMounts (getIgnoredVolumeMounts (core.Pod.Annotations pod)) (mountWork pod config) [].

(** The number of mounts of [mounts] under the reserved prefix. *)
Definition countVrs (mounts : list core.VolumeMount.t) : nat :=
  length (List.filter (λ m, isVrs (core.VolumeMount.MountPath m)) mounts).

(** A path with one leading slash, if it has one, removed. *)
Definition stripLeadingSlash (path : string) : string :=
  match path with
  | String "/" rest => rest
  | _ => path
  end.

(** The copy of a mount relocated under the mount point of a policy. *)
Definition relocated (cc : Container) (m : core.VolumeMount.t) : core.VolumeMount.t :=
  core.VolumeMount.mk (core.VolumeMount.Name m) (core.VolumeMount.ReadOnly m)
    (MountPoint cc +:+ "/" +:+ stripLeadingSlash (core.VolumeMount.MountPath m))
    (core.VolumeMount.SubPath m) (core.VolumeMount.MountPropagation m)
    (core.VolumeMount.SubPathExpr m).

Section Composed.
Context `{Constants}.

(** The environment copied from the matched containers. *)
Definition composedEnv (pod : core.Pod.t) (config : Sidecar) : list core.EnvVar.t :=
  matched pod config ≫= (λ p, renameEnv p.2 <$> core.Container.Env p.1).

Definition composedEnvFrom (pod : core.Pod.t) (config : Sidecar)
    : list core.EnvFromSource.t :=
  matched pod config ≫= (λ p, renameEnvFrom p.2 <$> core.Container.EnvFrom p.1).

(** The variables [AgentContainer] adds after those of the containers. *)
Definition fixedEnv (config : Sidecar) : list core.EnvVar.t :=
  (if 0 <? APIPort config
   then [core.EnvVar.mk EnvAPIPort (strconv.Itoa (APIPort config)) None]
   else [])
  ++ [fieldRefVar (EnvPrefixAgent +:+ "POD_IP") "status.podIP";
      fieldRefVar (EnvPrefixAgent +:+ "NAME") "metadata.name"].

Definition fixedMounts : list core.VolumeMount.t :=
  [plainMount AnnotationVolumeName AnnotationMountPoint;
   plainMount ConfigVolumeName ConfigMountPoint;
   plainMount ExportsVolumeName ExportsMountPoint].

End Composed.

Local Abbreviation ignoredOf pod := (getIgnoredVolumeMounts (core.Pod.Annotations pod)).

(** ** Sample values *)

(** Values of the constants for the examples below. *)
Definition sampleConstants : Constants := {|
  ContainerName := "traffic-agent";
  EnvPrefixApp := "_TEL_APP_";
  EnvPrefixAgent := "_TEL_AGENT_";
  EnvAPIPort := "TELEPRESENCE_API_PORT";
  AnnotationVolumeName := "traffic-annotations";
  AnnotationMountPoint := "/tel_pod_info";
  ConfigVolumeName := "traffic-config";
  ConfigMountPoint := "/etc/traffic-agent";
  ExportsVolumeName := "export-volume";
  ExportsMountPoint := "/tel_app_exports" |}.

Definition appContainer (name : string) (env : list core.EnvVar.t)
    (mounts : list core.VolumeMount.t) : core.Container.t :=
  core.Container.mk name "app:1" [] [] env [] mounts None.

Definition webPolicy : Container :=
  mkContainer "web" "WEB_" "/app" [mkIntercept "http" 9900 "TCP"].

Definition webPod : core.Pod.t :=
  core.Pod.mk ∅ [appContainer "web" [core.EnvVar.mk "PORT" "8080" None] []].

Definition webSidecar : Sidecar := mkSidecar "agent:2" 0 [webPolicy].

(** The policy of a second container that declares the agent port and
    the port name of [webPolicy]. *)
Definition apiPolicy : Container :=
  mkContainer "api" "API_" "/api" [mkIntercept "http" 9900 "TCP"].

Definition webAgent : core.Container.t :=
  core.Container.mk "traffic-agent" "agent:2" ["agent"]
    [core.ContainerPort.mk "http" 9900 "TCP"]
    [core.EnvVar.mk "_TEL_APP_WEB_PORT" "8080" None;
     fieldRefVar "_TEL_AGENT_POD_IP" "status.podIP";
     fieldRefVar "_TEL_AGENT_NAME" "metadata.name"]
    []
    [plainMount "traffic-annotations" "/tel_pod_info";
     plainMount "traffic-config" "/etc/traffic-agent";
     plainMount "export-volume" "/tel_app_exports"]
    (Some (core.Probe.mk (Some ["/bin/stat"; "/tmp/agent/ready"]))).

(** A Pod with two application containers that both declare [PORT], and
    both mount a volume under the reserved prefix and a data volume. *)
Definition twoPod : core.Pod.t :=
  core.Pod.mk ∅
    [appContainer "web" [core.EnvVar.mk "PORT" "8080" None]
       [core.VolumeMount.mk "web-token" true "/var/run/secrets/x" EmptyString None EmptyString;
        core.VolumeMount.mk "data" false "/data" "sub" None EmptyString];
     appContainer "api" [core.EnvVar.mk "PORT" "9090" None]
       [core.VolumeMount.mk "api-token" true "/var/run/secrets/x" EmptyString None EmptyString]].

Definition twoSidecar : Sidecar := mkSidecar "agent:2" 8081 [webPolicy; apiPolicy].

Definition twoAgent : core.Container.t :=
  core.Container.mk "traffic-agent" "agent:2" ["agent"]
    [core.ContainerPort.mk "http" 9900 "TCP"; core.ContainerPort.mk "http" 9900 "TCP"]
    [core.EnvVar.mk "_TEL_APP_WEB_PORT" "8080" None;
     core.EnvVar.mk "_TEL_APP_API_PORT" "9090" None;
     core.EnvVar.mk "TELEPRESENCE_API_PORT" "8081" None;
     fieldRefVar "_TEL_AGENT_POD_IP" "status.podIP";
     fieldRefVar "_TEL_AGENT_NAME" "metadata.name"]
    []
    [core.VolumeMount.mk "web-token" true "/var/run/secrets/x" EmptyString None EmptyString;
     core.VolumeMount.mk "data" false "/app/data" "sub" None EmptyString;
     plainMount "traffic-annotations" "/tel_pod_info";
     plainMount "traffic-config" "/etc/traffic-agent";
     plainMount "export-volume" "/tel_app_exports"]
    (Some (core.Probe.mk (Some ["/bin/stat"; "/tmp/agent/ready"]))).

(** A Pod in which no container has the name of a policy of [webSidecar]. *)
Definition otherPod : core.Pod.t :=
  core.Pod.mk ∅
    [appContainer "worker" [core.EnvVar.mk "PORT" "7070" None]
       [core.VolumeMount.mk "data" false "/data" EmptyString None EmptyString]].

(** A Pod whose only container mounts two volumes under the reserved
    prefix. *)
Definition tokensPod : core.Pod.t :=
  core.Pod.mk ∅
    [appContainer "web" []
       [core.VolumeMount.mk "token-a" true "/var/run/secrets/a" EmptyString None EmptyString;
        core.VolumeMount.mk "token-b" true "/var/run/secrets/b" EmptyString None EmptyString]].

(** [twoPod] with the annotation that names its two credential mounts. *)
Definition ignoringPod : core.Pod.t :=
  core.Pod.mk
    {[ "telepresence.getambassador.io/inject-ignore-volume-mounts" := "web-token, api-token" ]}
    (core.Pod.Containers twoPod).

(** A Pod without annotations whose container has a mount with an empty
    name. *)
Definition unnamedMountPod : core.Pod.t :=
  core.Pod.mk ∅
    [appContainer "web" []
       [core.VolumeMount.mk EmptyString false "/data" EmptyString None EmptyString]].

(** ** The volumes and the init container *)

(** The Kubernetes records of volumes and of the security context, with
    the sources and the fields that [AgentVolumes] and [InitContainer]
    set. *)
Module corevol.

Module KeyToPath.
Record t := mk { Key : string; Path : string; Mode : option Z }.
End KeyToPath.

Module DownwardAPIVolumeFile.
Record t := mk {
  Path : string;
  FieldRef : option core.ObjectFieldSelector.t;
  ResourceFieldRef : option core.ResourceFieldSelector.t;
  Mode : option Z }.
End DownwardAPIVolumeFile.

Module DownwardAPIVolumeSource.
Record t := mk { Items : list DownwardAPIVolumeFile.t; DefaultMode : option Z }.
End DownwardAPIVolumeSource.

(** [LocalObjectReference.Name] is the field [Name]. *)
Module ConfigMapVolumeSource.
Record t := mk {
  Name : string;
  Items : list KeyToPath.t;
  DefaultMode : option Z;
  Optional : option bool }.
End ConfigMapVolumeSource.

Module EmptyDirVolumeSource.
Record t := mk { Medium : string; SizeLimit : option string }.
End EmptyDirVolumeSource.

Module VolumeSource.
Record t := mk {
  DownwardAPI : option DownwardAPIVolumeSource.t;
  ConfigMap : option ConfigMapVolumeSource.t;
  EmptyDir : option EmptyDirVolumeSource.t }.
End VolumeSource.

Module Volume.
Record t := mk { Name : string; VolumeSource : VolumeSource.t }.
End Volume.

Module Capabilities.
Record t := mk { Add : list string; Drop : list string }.
End Capabilities.

Module SecurityContext.
Record t := mk { Capabilities : option Capabilities.t }.
End SecurityContext.

End corevol.

(** The package constants that [InitContainer] and [AgentVolumes] refer
    to besides those of [Constants]; they too are declared in a file that
    is not among the sources and are taken as parameters. *)
Class VolumeConstants := {
  InitContainerName : string;
  ConfigFile : string;
  ConfigMap : string }.

Section WithVolumeConstants.
Context `{Constants} `{VolumeConstants}.

(** [InitContainer(qualifiedAgentImage)].  The record [core.Container.t]
    has the fields that [AgentContainer] sets; the [SecurityContext],
    which only [InitContainer] sets, is returned beside the container. *)
Definition InitContainer (qualifiedAgentImage : string)
    : core.Container.t * corevol.SecurityContext.t :=
  (core.Container.mk InitContainerName qualifiedAgentImage ["agent-init"]
     [] [] [] [plainMount ConfigVolumeName ConfigMountPoint] None,
   corevol.SecurityContext.mk (Some (corevol.Capabilities.mk ["NET_ADMIN"] []))).

(** [AgentVolumes(agentName)]. *)
Definition AgentVolumes (agentName : string) : list corevol.Volume.t :=
  let items :=
    if decide (agentName ≠ EmptyString)
    then [corevol.KeyToPath.mk agentName ConfigFile None]
    else [] in
  [corevol.Volume.mk AnnotationVolumeName
     (corevol.VolumeSource.mk
        (Some (corevol.DownwardAPIVolumeSource.mk
                 [corevol.DownwardAPIVolumeFile.mk "annotations"
                    (Some (core.ObjectFieldSelector.mk "v1" "metadata.annotations"))
                    None None]
                 None))
        None None);
   corevol.Volume.mk ConfigVolumeName
     (corevol.VolumeSource.mk None
        (Some (corevol.ConfigMapVolumeSource.mk ConfigMap items None None))
        None);
   corevol.Volume.mk ExportsVolumeName
     (corevol.VolumeSource.mk None None
        (Some (corevol.EmptyDirVolumeSource.mk EmptyString None)))].

End WithVolumeConstants.

(** Values of the further constants for the examples. *)
Definition sampleVolumeConstants : VolumeConstants := {|
  InitContainerName := "tel-agent-init";
  ConfigFile := "config.yaml";
  ConfigMap := "telepresence-agents" |}.

(** [twoPod] with its containers in the other order. *)
Definition twoPodSwapped : core.Pod.t :=
  core.Pod.mk ∅ (List.rev (core.Pod.Containers twoPod)).

(** A Pod whose container declares an environment source and two mounts
    outside the reserved prefix, one of them named in the annotation. *)
Definition sourcesPod : core.Pod.t :=
  core.Pod.mk
    {[ "telepresence.getambassador.io/inject-ignore-volume-mounts" := "cache , scratch" ]}
    [core.Container.mk "web" "app:1" [] []
       [core.EnvVar.mk "PORT" "8080" None]
       [core.EnvFromSource.mk "CFG_" (Some (core.EnvSource.mk "web-config" None)) None]
       [core.VolumeMount.mk "data" false "/data" EmptyString None EmptyString;
        core.VolumeMount.mk "cache" false "/cache" EmptyString None EmptyString;
        core.VolumeMount.mk "logs" true "logs" EmptyString None EmptyString]
       None].

Definition sourcesAgent : core.Container.t :=
  core.Container.mk "traffic-agent" "agent:2" ["agent"]
    [core.ContainerPort.mk "http" 9900 "TCP"]
    [core.EnvVar.mk "_TEL_APP_WEB_PORT" "8080" None;
     fieldRefVar "_TEL_AGENT_POD_IP" "status.podIP";
     fieldRefVar "_TEL_AGENT_NAME" "metadata.name"]
    [core.EnvFromSource.mk "_TEL_APP_WEB_CFG_"
       (Some (core.EnvSource.mk "web-config" None)) None]
    [core.VolumeMount.mk "data" false "/app/data" EmptyString None EmptyString;
     core.VolumeMount.mk "logs" true "/app/logs" EmptyString None EmptyString;
     plainMount "traffic-annotations" "/tel_pod_info";
     plainMount "traffic-config" "/etc/traffic-agent";
     plainMount "export-volume" "/tel_app_exports"]
    (Some (core.Probe.mk (Some ["/bin/stat"; "/tmp/agent/ready"]))).

(** ** The installation of the traffic manager (pkg/install/helm/install.go) *)

Module helm.

Definition helmDriver : string := "secrets".
Definition releaseName : string := "traffic-manager".
Definition releaseOwner : string := "telepresence-cli".

(** A value of a [map[string]interface{}] as [getValues] builds it: a
    string or a map of such values. *)
#[warnings="-register-all"]
Inductive Value :=
  | VString (s : string)
  | VMap (m : gmap string Value).

(** The part of the client configuration that [getValues] reads.  A
    [resource.Quantity] is represented by the text that its [String]
    method returns. *)
Record Images := mkImages {
  Registry : string;
  WebhookAgentImage : string;
  WebhookRegistry : string }.

Record Config := mkConfig {
  ConfigImages : Images;
  GrpcMaxReceiveSize : option string }.

(** [getValues(ctx, clusterID)]; [clientConfig] is [client.GetConfig(ctx)]
    and [version] is [client.Version()]. *)
Definition getValues (clientConfig : Config) (version : string) (clusterID : string)
    : gmap string Value :=
  let imgConfig := ConfigImages clientConfig in
  let imageRegistry := Registry imgConfig in
  let imageTag := strings.TrimPrefix version "v" in
  let values : gmap string Value :=
    {[ "clusterID" := VString clusterID;
       "image" := VMap {[ "registry" := VString imageRegistry;
                          "tag" := VString imageTag ]};
       "createdBy" := VString releaseOwner ]} in
  let values :=
    match GrpcMaxReceiveSize clientConfig with
    | Some mxRecvSize =>
        <[ "grpc" := VMap {[ "maxReceiveSize" := VString mxRecvSize ]} ]> values
    | None => values
    end in
  if decide (WebhookAgentImage imgConfig ≠ EmptyString) then
    let parts := strings.Split (WebhookAgentImage imgConfig) ":" in
    let '(image, tag) :=
      match parts with
      | part0 :: part1 :: _ => (part0, part1)
      | _ => (WebhookAgentImage imgConfig, EmptyString)
      end in
    <[ "agentInjector" :=
         VMap {[ "agentImage" :=
                   VMap {[ "registry" := VString (WebhookRegistry imgConfig);
                           "name" := VString image;
                           "tag" := VString tag ]} ]} ]> values
  else values.

(** An error: one that a callee returns, or one that [fmt.Errorf] builds
    around a cause with the verb [%w]. *)
Inductive error :=
  | Err (msg : string)
  | Wrap (prefix : string) (cause : error).

(** [err.Error()]. *)
Fixpoint errorString (err : error) : string :=
  match err with
  | Err msg => msg
  | Wrap prefix cause => prefix +:+ errorString cause
  end.

Inductive result (A : Type) :=
  | Ok (a : A)
  | Fail (err : error).
Arguments Ok {A} a.
Arguments Fail {A} err.

(** The fields that the source sets on the actions of the helm library;
    a [time.Duration] is a number of nanoseconds. *)
Definition Minute : Z := 60 * 1000000000.

Record Install := mkInstall {
  InstallReleaseName : string;
  InstallNamespace : string;
  InstallTimeout : Z;
  InstallAtomic : bool;
  CreateNamespace : bool }.

Record Upgrade := mkUpgrade {
  UpgradeTimeout : Z;
  UpgradeAtomic : bool;
  UpgradeNamespace : string }.

Record Uninstall := mkUninstall {
  UninstallTimeout : Z }.

(** What a call of the package does to the cluster and to the log, in the
    order in which it does it. *)
Inductive Event :=
  | LogInfo (msg : string)
  | LogError (msg : string)
  | RunInstall (install : Install) (values : gmap string Value)
  | RunUpgrade (upgrade : Upgrade) (name : string) (values : gmap string Value)
  | RunUninstall (uninstall : Uninstall) (name : string).

Section WithCluster.
(** The releases and the charts of the helm library. *)
Context {Release Chart : Type}.

(** The answers of what the source calls outside of itself, as functions
    of what the source passes (the log lines of the callees are not part
    of the events below): the helm
    library ([Init] of a configuration for a namespace and a driver, and
    [Run] of the three actions), the functions of the package that are
    not among the sources ([loadChart], [getHelmRelease],
    [shouldManageRelease], [shouldUpgradeRelease]), and the client
    configuration and version found through the context. *)
Record Cluster := mkCluster {
  helmConfigInit : string → string → option error;
  loadChart : result Chart;
  getHelmRelease : string → result (option Release);
  shouldManageRelease : Release → bool;
  shouldUpgradeRelease : Release → bool;
  installRun : Install → Chart → gmap string Value → option error;
  upgradeRun : Upgrade → string → Chart → gmap string Value → option error;
  uninstallRun : Uninstall → string → option error;
  clientConfig : Config;
  clientVersion : string }.

(** [getHelmConfig(ctx, configFlags, namespace)]: the error of [Init], if
    any; the configuration itself is determined by the namespace. *)
Definition getHelmConfig (k : Cluster) (namespace : string) : option error :=
  helmConfigInit k namespace helmDriver.

Definition installNew (k : Cluster) (chrt : Chart) (namespace clusterID : string)
    : list Event * option error :=
  let install := mkInstall releaseName namespace (2 * Minute) true true in
  let values := getValues (clientConfig k) (clientVersion k) clusterID in
  ([LogInfo "No existing Traffic Manager found, installing...";
    RunInstall install values],
   installRun k install chrt values).

Definition upgradeExisting (k : Cluster) (chrt : Chart) (namespace clusterID : string)
    : list Event * option error :=
  let upgrade := mkUpgrade (2 * Minute) true namespace in
  let values := getValues (clientConfig k) (clientVersion k) clusterID in
  ([LogInfo "Existing Traffic Manager found, upgrading...";
    RunUpgrade upgrade releaseName values],
   upgradeRun k upgrade releaseName chrt values).

(** [EnsureTrafficManager(ctx, configFlags, namespace, clusterID, env)]:
    what it does and the error it returns ([None] is nil). *)
Definition EnsureTrafficManager (k : Cluster) (namespace clusterID : string)
    : list Event * option error :=
  match getHelmConfig k namespace with
  | Some err => ([], Some (Wrap "failed to initialize helm config: " err))
  | None =>
      match loadChart k with
      | Fail err => ([], Some (Wrap "unable to load built-in helm chart: " err))
      | Ok chrt =>
          match getHelmRelease k namespace with
          | Fail err =>
              ([LogError ("Unable to look for existing helm release: "
                          +:+ errorString err
                          +:+ ". Assuming it's there and continuing...")],
               None)
          | Ok None => installNew k chrt namespace clusterID
          | Ok (Some existing) =>
              if shouldManageRelease k existing && shouldUpgradeRelease k existing
              then upgradeExisting k chrt namespace clusterID
              else
                ([LogInfo "Existing Traffic Manager not owned by cli or does not need upgrade, will not modify"],
                 None)
          end
      end
  end.

(** [DeleteTrafficManager(ctx, configFlags, namespace, env)].  The test
    [existing == nil || !shouldManageRelease(ctx, existing)] asks
    [shouldManageRelease] for a release only. *)
Definition DeleteTrafficManager (k : Cluster) (namespace : string)
    : list Event * option error :=
  match getHelmConfig k namespace with
  | Some err => ([], Some (Wrap "failed to initialize helm config: " err))
  | None =>
      match getHelmRelease k namespace with
      | Fail err =>
          ([LogError ("Unable to look for existing helm release: "
                      +:+ errorString err
                      +:+ ". Assuming it's already gone...")],
           None)
      | Ok existing =>
          match existing with
          | Some release =>
              if negb (shouldManageRelease k release)
              then
                ([LogInfo "Traffic Manager already deleted or not owned by cli, will not uninstall"],
                 None)
              else
                let uninstall := mkUninstall (2 * Minute) in
                ([LogInfo "Uninstalling Traffic Manager";
                  RunUninstall uninstall releaseName],
                 uninstallRun k uninstall releaseName)
          | None =>
              ([LogInfo "Traffic Manager already deleted or not owned by cli, will not uninstall"],
               None)
          end
      end
  end.

End WithCluster.

(** The calls of the helm actions among the events. *)
Definition isRun (e : Event) : bool :=
  match e with
  | RunInstall _ _ | RunUpgrade _ _ _ | RunUninstall _ _ => true
  | LogInfo _ | LogError _ => false
  end.

Definition runs (events : list Event) : list Event := List.filter isRun events.

End helm.

(** A client configuration whose agent image names a registry with a
    port. *)
Definition registryPortConfig : helm.Config :=
  helm.mkConfig
    (helm.mkImages "docker.io/datawire" "localhost:5000/tel2:2.4.9" "reg") None.

(** A cluster without a release, in which every call succeeds. *)
Definition emptyCluster : @helm.Cluster string unit :=
  helm.mkCluster (λ _ _, None) (helm.Ok ()) (λ _, helm.Ok None)
    (λ _, true) (λ _, true) (λ _ _ _, None) (λ _ _ _ _, None) (λ _ _, None)
    registryPortConfig "v2.4.9".

(** ** The list of workloads of the command line (listInfo.printList) *)

Module cli.

(** The flags of the [list] command. *)
Record listInfo := mkListInfo {
  onlyIntercepts : bool;
  onlyAgents : bool;
  onlyInterceptable : bool;
  debug : bool;
  namespace : string;
  watch : bool }.

Section WithIntercepts.
(** [manager.InterceptInfo] and [connector.AgentInfo] (here [AgentInfoT])
    are declared outside of the sources; of an intercept the functions
    below read [Spec.Name] and [Spec.Namespace].  Pointers to these
    records are taken not to be nil. *)
Context {InterceptInfo AgentInfoT : Type}.
Context (specName specNamespace : InterceptInfo → string).
(** The text that [describeIntercept(ii, volumeMountsPrevented, debug, sb)]
    writes to the builder [sb]; the message of the error stands for the
    error, [None] for nil. *)
Context (describeIntercept : InterceptInfo → option string → bool → string).

(** The fields of [connector.WorkloadInfo] that [printList] reads; the
    declaration is not among the sources. *)
Record WorkloadInfo := mkWorkloadInfo {
  Name : string;
  Namespace : string;
  InterceptInfos : list InterceptInfo;
  AgentInfo : option AgentInfoT;
  NotInterceptableReason : string }.

(** [DescribeIntercepts(iis, volumeMountsPrevented, debug)]: the state of
    the loop is the index and the content of the builder. *)
Definition DescribeIntercepts (iis : list InterceptInfo)
    (volumeMountsPrevented : option string) (debug : bool) : string :=
  (foldl (λ '(i, sb) ii,
            let sb := if (0 <? i)%nat then sb +:+ String "010" EmptyString else sb in
            (S i, sb +:+ describeIntercept ii volumeMountsPrevented debug))
         (0%nat, "intercepted") iis).2.

(** What [printList] writes: the calls of [fmt.Fprintln] and [fmt.Fprintf]
    on [stdout] with their arguments after the format (the format is
    [%-*s: local-only intercept] for [PrintLocalOnly] and [%-*s: %s] for
    [PrintState], each with a newline), and the calls of
    [StructuredStream]. *)
Inductive Output :=
  | Println (line : string)
  | PrintLocalOnly (nameLen : nat) (n : string)
  | PrintState (nameLen : nat) (n : string) (state : string)
  | StreamNothing
  | StreamWorkloads (workloads : list WorkloadInfo).

(** How a call ends: it returns or it panics. *)
Inductive Outcome := Returned | Panicked.

(** The closure [state] of [printList]. *)
Definition state (s : listInfo) (workload : WorkloadInfo) : string :=
  match InterceptInfos workload with
  | _ :: _ => DescribeIntercepts (InterceptInfos workload) None (debug s)
  | [] =>
      match AgentInfo workload with
      | Some _ => "ready to intercept (traffic-agent already installed)"
      | None =>
          if decide (NotInterceptableReason workload ≠ EmptyString)
          then "not interceptable (traffic-agent not installed): "
               +:+ NotInterceptableReason workload
          else "ready to intercept (traffic-agent not yet installed)"
      end
  end.

(** [dep.InterceptInfos[0]]: [None] when the index is out of range, where
    the source panics. *)
Definition firstIntercept (dep : WorkloadInfo) : option InterceptInfo :=
  match InterceptInfos dep with
  | ii :: _ => Some ii
  | [] => None
  end.

(** The first loop of [printList]: the value of [includeNs] after the
    loop, from the value [ns] before it; [None] when the loop panics. *)
Fixpoint includeNsLoop (ns : string) (workloads : list WorkloadInfo) : option bool :=
  match workloads with
  | [] => Some false
  | dep :: rest =>
      let depNs :=
        if decide (Namespace dep = EmptyString)
        then specNamespace <$> firstIntercept dep
        else Some (Namespace dep) in
      match depNs with
      | None => None
      | Some depNs =>
          if bool_decide (ns ≠ EmptyString) && bool_decide (depNs ≠ ns)
          then Some true
          else includeNsLoop depNs rest
      end
  end.

(** The second loop: the value of [nameLen] after the loop, from the
    value before it. *)
Fixpoint nameLenLoop (includeNs : bool) (nameLen : nat) (workloads : list WorkloadInfo)
    : option nat :=
  match workloads with
  | [] => Some nameLen
  | dep :: rest =>
      let n :=
        if decide (Name dep = EmptyString)
        then specName <$> firstIntercept dep
        else Some (Name dep) in
      match n with
      | None => None
      | Some n =>
          let nl := String.length n in
          let nl := if includeNs then (nl + (String.length (Namespace dep) + 1))%nat else nl in
          nameLenLoop includeNs (if (nameLen <? nl)%nat then nl else nameLen) rest
      end
  end.

(** The third loop: what it writes, and how it ends. *)
Fixpoint printLoop (s : listInfo) (includeNs : bool) (nameLen : nat)
    (workloads : list WorkloadInfo) : list Output * Outcome :=
  match workloads with
  | [] => ([], Returned)
  | workload :: rest =>
      if decide (Name workload = EmptyString) then
        match firstIntercept workload with
        | None => ([], Panicked)
        | Some ii =>
            let n := specName ii in
            let n := if includeNs then n +:+ "." +:+ Namespace workload else n in
            let '(out, outcome) := printLoop s includeNs nameLen rest in
            (PrintLocalOnly nameLen n :: out, outcome)
        end
      else
        let n := Name workload in
        let n := if includeNs then n +:+ "." +:+ Namespace workload else n in
        let '(out, outcome) := printLoop s includeNs nameLen rest in
        (PrintState nameLen n (state s workload) :: out, outcome)
  end.

(** [s.printList(workloads, stdout, jsonOut)]; [isStreamer] tells whether
    [stdout] is an [output.StructuredStreamer]. *)
Definition printList (s : listInfo) (workloads : list WorkloadInfo)
    (isStreamer : bool) (jsonOut : bool) : list Output * Outcome :=
  if jsonOut && negb isStreamer then ([], Panicked)
  else if (length workloads =? 0)%nat then
    if jsonOut then ([StreamNothing], Returned)
    else ([Println "No Workloads (Deployments, StatefulSets, or ReplicaSets)"], Returned)
  else if jsonOut then ([StreamWorkloads workloads], Returned)
  else
    match includeNsLoop (namespace s) workloads with
    | None => ([], Panicked)
    | Some includeNs =>
        match nameLenLoop includeNs 0 workloads with
        | None => ([], Panicked)
        | Some nameLen => printLoop s includeNs nameLen workloads
        end
    end.

End WithIntercepts.

(** The width and the label of a line of the list. *)
Definition lineLabel {InterceptInfo AgentInfoT : Type}
    (o : @Output InterceptInfo AgentInfoT) : option (nat * string) :=
  match o with
  | PrintLocalOnly nameLen n => Some (nameLen, n)
  | PrintState nameLen n _ => Some (nameLen, n)
  | _ => None
  end.

End cli.

(** Workloads for the examples: intercepts are pairs of a name and a
    namespace, described by their name. *)
Definition sampleWorkloads : list (@cli.WorkloadInfo (string * string) unit) :=
  [cli.mkWorkloadInfo "web" "default" [] (Some ()) EmptyString;
   cli.mkWorkloadInfo EmptyString EmptyString [("local-intercept", "default")] None EmptyString;
   cli.mkWorkloadInfo "db" "storage" [] None "no service"].

(** A policy that declares the agent port 9900 twice, and a
    configuration of this policy and of a second one with another port. *)
Definition dedupWebPolicy : Container :=
  mkContainer "web" "WEB_" "/app"
    [mkIntercept "http" 9900 "TCP"; mkIntercept "grpc" 9901 "TCP";
     mkIntercept "http-alt" 9900 "TCP"].

Definition dedupSidecar : Sidecar :=
  mkSidecar "agent:2" 0
    [dedupWebPolicy; mkContainer "api" "API_" "/api" [mkIntercept "admin" 9902 "UDP"]].

(** A cluster with a release that the command line manages and should
    upgrade, in which every call succeeds. *)
Definition ownedCluster : @helm.Cluster string unit :=
  helm.mkCluster (λ _ _, None) (helm.Ok ()) (λ _, helm.Ok (Some "traffic-manager-1"))
    (λ _, true) (λ _, true) (λ _ _ _, None) (λ _ _ _ _, None) (λ _ _, None)
    registryPortConfig "v2.4.9".

(** ** The library functions and the assembler on sample inputs *)

Example Split_empty : strings.Split "" "," = [""].
Proof. reflexivity. Qed.

Example Split_three : strings.Split "a, b,,c" "," = ["a"; " b"; ""; "c"].
Proof. reflexivity. Qed.

Example TrimSpace_both : strings.TrimSpace "  a b	 " = "a b".
Proof. reflexivity. Qed.

Example TrimSpace_unicode :
  strings.TrimSpace
    (String (ascii_of_nat 194) (String (ascii_of_nat 160)
       (String "a" (String (ascii_of_nat 226) (String (ascii_of_nat 128)
          (String (ascii_of_nat 168) (String " " EmptyString)))))))
  = "a".
Proof. vm_compute. reflexivity. Qed.

Example getIgnoredVolumeMounts_absent_annotation :
  getIgnoredVolumeMounts ∅ = {[ EmptyString ]}.
Proof. vm_compute. reflexivity. Qed.

Example TrimPrefix_slash : strings.TrimPrefix "/data" "/" = "data".
Proof. reflexivity. Qed.

Example TrimPrefix_none : strings.TrimPrefix "data" "/" = "data".
Proof. reflexivity. Qed.

Example Itoa_8080 : strconv.Itoa 8080 = "8080".
Proof. reflexivity. Qed.

Example AgentContainer_web :
  @AgentContainer sampleConstants webPod webSidecar =
  Some (core.Container.mk "traffic-agent" "agent:2" ["agent"]
          [core.ContainerPort.mk "http" 9900 "TCP"]
          [core.EnvVar.mk "_TEL_APP_WEB_PORT" "8080" None;
           @fieldRefVar "_TEL_AGENT_POD_IP" "status.podIP";
           @fieldRefVar "_TEL_AGENT_NAME" "metadata.name"]
          []
          [plainMount "traffic-annotations" "/tel_pod_info";
           plainMount "traffic-config" "/etc/traffic-agent";
           plainMount "export-volume" "/tel_app_exports"]
          (Some (core.Probe.mk (Some ["/bin/stat"; "/tmp/agent/ready"])))).
Proof. vm_compute. reflexivity. Qed.

(** ** The loops as list functions *)

Lemma foldl_append_each {A B : Type} (g : B → A) (l : list B) (acc : list A) :
  foldl (λ acc x, acc ++ [g x]) acc l = acc ++ (g <$> l).
Proof.
  revert acc. induction l as [|x l IH]; intros acc; simpl.
  - by rewrite app_nil_r.
  - rewrite IH. by rewrite <- app_assoc.
Qed.

Lemma foldl_append_bind {A B : Type} (g : B → list A) (l : list B) (acc : list A) :
  foldl (λ acc x, acc ++ g x) acc l = acc ++ (l ≫= g).
Proof.
  revert acc. induction l as [|x l IH]; intros acc; simpl.
  - by rewrite app_nil_r.
  - rewrite IH. by rewrite <- app_assoc.
Qed.

Lemma foldl_ext_eq {A B : Type} (f g : A → B → A) (l : list B) (a : A) :
  (∀ a x, f a x = g a x) → foldl f a l = foldl g a l.
Proof.
  intros Hfg. revert a. induction l as [|x l IH]; intros a; simpl; [done|].
  by rewrite Hfg, IH.
Qed.

Lemma foldl_bind {A B C : Type} (f : A → C → A) (g : B → list C) (l : list B) (a : A) :
  foldl (λ a x, foldl f a (g x)) a l = foldl f a (l ≫= g).
Proof.
  revert a. induction l as [|x l IH]; intros a; simpl; [done|].
  by rewrite foldl_app, IH.
Qed.

Lemma fmap_of_bind {A B C : Type} (f : B → C) (g : A → list B) (l : list A) :
  f <$> (l ≫= g) = l ≫= (λ x, f <$> g x).
Proof. induction l as [|x l IH]; csimpl; [done|]. by rewrite fmap_app, IH. Qed.

Lemma bind_ext_in {A B : Type} (f g : A → list B) (l : list A) :
  (∀ x, x ∈ l → f x = g x) → l ≫= f = l ≫= g.
Proof.
  induction l as [|x l IH]; intros Hfg; csimpl; [done|].
  rewrite Hfg by (by left). rewrite IH; [done|]. intros y Hy. apply Hfg. by right.
Qed.

Lemma eachMatch_firstNamed {S : Type} cns cc (f : core.Container.t → Container → S → S) s :
  eachMatch cns cc f s =
  match firstNamed cns (Name cc) with
  | Some app => f app cc s
  | None => s
  end.
Proof.
  unfold firstNamed. induction cns as [|app cns IH]; simpl; [done|].
  destruct (decide (core.Container.Name app = Name cc)) as [Heq|Hne]; simpl; [done|].
  rewrite IH. by destruct (list_find _ cns) as [[i a]|].
Qed.

Lemma EachContainer_matched {S : Type} pod config
    (f : core.Container.t → Container → S → S) s :
  EachContainer pod config f s = foldl (λ s p, f p.1 p.2 s) s (matched pod config).
Proof.
  unfold EachContainer, matched. rewrite <- foldl_bind.
  apply foldl_ext_eq. intros a cc. rewrite eachMatch_firstNamed.
  by destruct (firstNamed _ _).
Qed.

Lemma firstNamed_Some cns name app :
  firstNamed cns name = Some app ↔
  ∃ i, cns !! i = Some app ∧ core.Container.Name app = name ∧
       ∀ j other, cns !! j = Some other → (j < i)%nat → core.Container.Name other ≠ name.
Proof.
  unfold firstNamed. split.
  - destruct (list_find _ cns) as [[i a]|] eqn:Hfind; simpl; [|done].
    intros [= ->]. apply list_find_Some in Hfind as (? & ? & ?). eauto.
  - intros (i & Hi & Hname & Hfirst).
    assert (list_find (λ a, core.Container.Name a = name) cns = Some (i, app)) as ->; [|done].
    apply list_find_Some. eauto.
Qed.

Lemma firstNamed_None cns name :
  firstNamed cns name = None ↔ ∀ app, app ∈ cns → core.Container.Name app ≠ name.
Proof.
  unfold firstNamed. destruct (list_find _ cns) as [[i a]|] eqn:Hfind; simpl.
  - apply list_find_Some in Hfind as (Hi & Hname & _). split; [done|].
    intros Hall. exfalso. eapply Hall; [|done]. eapply list_elem_of_lookup_2; eauto.
  - split; [|done]. intros _ app Happ. apply list_find_None in Hfind.
    by eapply Forall_forall in Hfind.
Qed.

Lemma ports_loop (l : list Container) (acc : list core.ContainerPort.t) :
  foldl (λ ports cc,
           foldl (λ ports ic, ports ++ [containerPort ic]) ports (PortUniqueIntercepts cc))
        acc l
  = acc ++ (containerPort <$> (l ≫= PortUniqueIntercepts)).
Proof.
  revert acc. induction l as [|cc l IH]; intros acc; simpl.
  - by rewrite app_nil_r.
  - rewrite IH, foldl_append_each, fmap_app. by rewrite <- app_assoc.
Qed.

Section Composition.
Context `{Constants}.

Lemma appendAppContainerEnv_map app cc es :
  appendAppContainerEnv app cc es = es ++ (renameEnv cc <$> core.Container.Env app).
Proof. apply foldl_append_each. Qed.

Lemma appendAppContainerEnvFrom_map app cc es :
  appendAppContainerEnvFrom app cc es = es ++ (renameEnvFrom cc <$> core.Container.EnvFrom app).
Proof. apply foldl_append_each. Qed.

Lemma env_loop pod config :
  EachContainer pod config
    (λ app cc '(evs, efs),
       (appendAppContainerEnv app cc evs, appendAppContainerEnvFrom app cc efs))
    ([], [])
  = (composedEnv pod config, composedEnvFrom pod config).
Proof.
  rewrite EachContainer_matched. unfold composedEnv, composedEnvFrom.
  generalize (matched pod config). intros l.
  change (l ≫= _) with ([] ++ (l ≫= (λ p, renameEnv p.2 <$> core.Container.Env p.1))) at 1.
  change (l ≫= (λ p, renameEnvFrom p.2 <$> core.Container.EnvFrom p.1))
    with ([] ++ (l ≫= (λ p, renameEnvFrom p.2 <$> core.Container.EnvFrom p.1))).
  generalize (@nil core.EnvVar.t) (@nil core.EnvFromSource.t).
  induction l as [|[app cc] l IH]; intros evs efs; simpl.
  - by rewrite !app_nil_r.
  - rewrite IH, appendAppContainerEnv_map, appendAppContainerEnvFrom_map.
    by rewrite <- !app_assoc.
Qed.

Lemma mounts_loop pod config :
  EachContainer pod config
    (λ app cc mounts,
       appendAppContainerVolumeMounts app cc mounts (core.Pod.Annotations pod))
    []
  = composedMounts pod config.
Proof.
  rewrite EachContainer_matched. unfold composedMounts, composeMounts, mountWork.
  rewrite <- foldl_bind. apply foldl_ext_eq. intros mounts [app cc]; simpl.
  unfold appendAppContainerVolumeMounts. generalize (core.Container.VolumeMounts app).
  intros l. revert mounts. induction l as [|m l IH]; intros mounts; simpl; [done|].
  by rewrite IH.
Qed.

(** [AgentContainer] in one equation. *)
Lemma AgentContainer_eq pod config :
  AgentContainer pod config =
  match interceptPorts config with
  | [] => None
  | _ :: _ =>
      Some (core.Container.mk ContainerName (AgentImage config) ["agent"]
              (containerPort <$> interceptPorts config)
              (composedEnv pod config ++ fixedEnv config)
              (composedEnvFrom pod config)
              (composedMounts pod config ++ fixedMounts)
              (Some (core.Probe.mk (Some ["/bin/stat"; "/tmp/agent/ready"]))))
  end.
Proof.
  unfold AgentContainer. rewrite ports_loop, env_loop, mounts_loop. simpl.
  fold (interceptPorts config).
  destruct (interceptPorts config) as [|ic ics] eqn:Hports; [done|].
  simpl length. simpl Nat.eqb. cbv iota.
  f_equal. f_equal.
  - unfold fixedEnv. destruct (0 <? APIPort config); by rewrite <- ?app_assoc.
  - by destruct (composedEnvFrom pod config).
Qed.

Lemma AgentContainer_Some pod config c :
  AgentContainer pod config = Some c →
  interceptPorts config ≠ [] ∧
  c = core.Container.mk ContainerName (AgentImage config) ["agent"]
        (containerPort <$> interceptPorts config)
        (composedEnv pod config ++ fixedEnv config)
        (composedEnvFrom pod config)
        (composedMounts pod config ++ fixedMounts)
        (Some (core.Probe.mk (Some ["/bin/stat"; "/tmp/agent/ready"]))).
Proof.
  rewrite AgentContainer_eq.
  destruct (interceptPorts config) as [|ic ics]; [done|]. by intros [= <-].
Qed.

End Composition.

(** ** The Port Deduplicator *)

Lemma firstWithPort_cons ic ics p :
  firstWithPort (ic :: ics) p =
  if decide (AgentPort ic = p) then Some ic else firstWithPort ics p.
Proof.
  unfold firstWithPort. simpl. destruct (decide (AgentPort ic = p)); [done|].
  by destruct (list_find _ ics) as [[i a]|].
Qed.

Lemma uniqueFrom_sublist seen ics : uniqueFrom seen ics `sublist_of` ics.
Proof.
  revert seen. induction ics as [|ic ics IH]; intros seen; simpl; [done|].
  destruct (decide (AgentPort ic ∈ seen)).
  - apply sublist_cons, IH.
  - apply sublist_skip, IH.
Qed.

Lemma uniqueFrom_fresh seen ics ic :
  ic ∈ uniqueFrom seen ics → AgentPort ic ∉ seen.
Proof.
  revert seen. induction ics as [|x ics IH]; intros seen; simpl.
  - by intros ?%elem_of_nil.
  - destruct (decide (AgentPort x ∈ seen)); [by apply IH|].
    intros [->|Hin]%elem_of_cons; [done|]. apply IH in Hin.
    by apply not_elem_of_union in Hin as [_ ?].
Qed.

Lemma uniqueFrom_NoDup seen ics : NoDup (AgentPort <$> uniqueFrom seen ics).
Proof.
  revert seen. induction ics as [|x ics IH]; intros seen; simpl; [constructor|].
  destruct (decide (AgentPort x ∈ seen)); [apply IH|].
  rewrite fmap_cons. constructor; [|apply IH].
  intros (ic & Hport & Hin)%list_elem_of_fmap.
  apply uniqueFrom_fresh in Hin.
  apply not_elem_of_union in Hin as [Hin _]. by apply not_elem_of_singleton in Hin.
Qed.

Lemma uniqueFrom_first seen ics ic :
  ic ∈ uniqueFrom seen ics ↔
  (AgentPort ic ∉ seen) ∧ firstWithPort ics (AgentPort ic) = Some ic.
Proof.
  revert seen. induction ics as [|x ics IH]; intros seen; simpl.
  - split; [by intros ?%elem_of_nil|]. by intros [_ ?].
  - rewrite firstWithPort_cons.
    destruct (decide (AgentPort x ∈ seen)) as [Hseen|Hfresh].
    + rewrite IH. destruct (decide (AgentPort x = AgentPort ic)) as [Heq|Hne]; [|done].
      rewrite <- Heq. split; intros [? ?]; done.
    + rewrite elem_of_cons, IH, not_elem_of_union, not_elem_of_singleton.
      destruct (decide (AgentPort x = AgentPort ic)) as [Heq|Hne].
      * split.
        -- intros [->|[[Hnot _] _]]; [done|]. by destruct Hnot.
        -- intros [_ [= ->]]. by left.
      * split.
        -- intros [->|[[_ Hnot] ?]]; done.
        -- intros [Hnot ?]. right. split_and!; [congruence|done..].
Qed.

Lemma uniqueFrom_by_position (seen : gset Z) (ics : list Intercept) :
  uniqueFrom seen ics =
  mjoin (imap (λ i ic,
                 if decide (AgentPort ic ∈ seen ∨ AgentPort ic ∈ AgentPort <$> take i ics)
                 then [] else [ic])
              ics).
Proof.
  revert seen. induction ics as [|x ics IH]; intros seen; [done|].
  rewrite imap_cons. simpl uniqueFrom.
  destruct (decide (AgentPort x ∈ seen)) as [Hseen|Hfresh].
  - rewrite (decide_True (P := _ ∨ _)) by (by left). csimpl. rewrite IH. f_equal.
    apply imap_ext. intros i ic _. simpl. apply decide_ext.
    rewrite elem_of_cons. split; [tauto|]. intros [?|[->|?]]; tauto.
  - rewrite (decide_False (P := _ ∨ _)).
    + csimpl. f_equal. rewrite IH. f_equal.
      apply imap_ext. intros i ic _. simpl. apply decide_ext.
      rewrite elem_of_cons, elem_of_union, elem_of_singleton. tauto.
    + intros [?|?%elem_of_nil]; done.
Qed.

(** C8: the output of the Port Deduplicator is the policy's intercepts in
    their order without those whose agent port occurs earlier in the
    list: the intercept at a position is kept exactly when no intercept
    before that position has its agent port.  The output is thus a
    subsequence of the input, no two of its entries have the same agent
    port, its entries are exactly the first occurrences of the agent ports
    of the input, and it is empty when the input is empty. *)
Theorem PortUniqueIntercepts_first_occurrences (cn : Container) :
  PortUniqueIntercepts cn `sublist_of` Intercepts cn
  ∧ NoDup (AgentPort <$> PortUniqueIntercepts cn)
  ∧ (∀ ic, ic ∈ PortUniqueIntercepts cn ↔
           firstWithPort (Intercepts cn) (AgentPort ic) = Some ic)
  ∧ (∀ name envPrefix mountPoint,
       PortUniqueIntercepts (mkContainer name envPrefix mountPoint []) = [])
  ∧ PortUniqueIntercepts cn =
      mjoin (imap (λ i ic,
                     if decide (AgentPort ic ∈ AgentPort <$> take i (Intercepts cn))
                     then [] else [ic])
                  (Intercepts cn)).
Proof.
  unfold PortUniqueIntercepts. split_and!.
  - apply uniqueFrom_sublist.
  - apply uniqueFrom_NoDup.
  - intros ic. rewrite uniqueFrom_first. split; [by intros [_ ?]|].
    intros ?. split; [apply not_elem_of_empty|done].
  - done.
  - rewrite uniqueFrom_by_position. f_equal. apply imap_ext. intros i ic _.
    apply decide_ext. split; [|by right].
    intros [?%not_elem_of_empty|?]; done.
Qed.

Example PortUniqueIntercepts_drops_later :
  PortUniqueIntercepts
    (mkContainer "web" "WEB_" "/app"
       [mkIntercept "http" 9900 "TCP"; mkIntercept "grpc" 9901 "TCP";
        mkIntercept "http-alt" 9900 "TCP"])
  = [mkIntercept "http" 9900 "TCP"; mkIntercept "grpc" 9901 "TCP"].
Proof. vm_compute. reflexivity. Qed.

(** ** The Container Matcher *)

(** C7: [EachContainer] calls the visitor, in the order of the policies,
    once for every policy for which the Pod has a container of that name,
    with the first such container of the Pod, and not at all for the other
    policies: these are the calls a recording visitor sees, and the result
    for any visitor is that of making these calls one after the other. *)
Theorem EachContainer_calls (pod : core.Pod.t) (config : Sidecar) :
  EachContainer pod config recordCall [] =
    Containers config ≫=
      (λ cc, match firstNamed (core.Pod.Containers pod) (Name cc) with
             | Some app => [(app, cc)]
             | None => []
             end)
  ∧ (∀ (S : Type) (f : core.Container.t → Container → S → S) (s : S),
       EachContainer pod config f s =
       foldl (λ s call, f call.1 call.2 s) s (EachContainer pod config recordCall []))
  ∧ (∀ cc app,
       firstNamed (core.Pod.Containers pod) (Name cc) = Some app ↔
       ∃ i, core.Pod.Containers pod !! i = Some app
            ∧ core.Container.Name app = Name cc
            ∧ ∀ j other, core.Pod.Containers pod !! j = Some other → (j < i)%nat →
                         core.Container.Name other ≠ Name cc)
  ∧ (∀ cc, firstNamed (core.Pod.Containers pod) (Name cc) = None ↔
           ∀ app, app ∈ core.Pod.Containers pod → core.Container.Name app ≠ Name cc).
Proof.
  assert (Hcalls : EachContainer pod config recordCall [] = matched pod config).
  { rewrite EachContainer_matched. generalize (matched pod config). intros l.
    rewrite (foldl_ext_eq _ (λ calls p, calls ++ [id p])).
    + by rewrite foldl_append_each, list_fmap_id.
    + by intros calls [app cc]. }
  split_and!.
  - exact Hcalls.
  - intros S f s. rewrite Hcalls. apply EachContainer_matched.
  - intros cc app. apply firstNamed_Some.
  - intros cc. apply firstNamed_None.
Qed.

Example EachContainer_first_of_two :
  EachContainer
    (core.Pod.mk ∅ [appContainer "db" [] []; appContainer "web" [] [];
                    appContainer "web" [core.EnvVar.mk "SECOND" "1" None] []])
    (mkSidecar "agent:2" 0 [webPolicy; mkContainer "cache" "C_" "/c" []; webPolicy])
    recordCall []
  = [(appContainer "web" [] [], webPolicy); (appContainer "web" [] [], webPolicy)].
Proof. vm_compute. reflexivity. Qed.

(** ** The Container Assembler: ports *)

Lemma int32_small (x : Z) : - 2 ^ 31 ≤ x < 2 ^ 31 → int32 x = x.
Proof. intros Hx. unfold int32. rewrite Z.mod_small; lia. Qed.

Lemma NoDup_bind_positions {A B : Type} (g : A → list B) (l : list A) :
  (∀ x, x ∈ l → NoDup (g x)) →
  (∀ i j x y b, l !! i = Some x → l !! j = Some y → i ≠ j → b ∈ g x → b ∈ g y → False) →
  NoDup (l ≫= g).
Proof.
  induction l as [|x l IH]; intros Hnd Hdisj; csimpl; [constructor|].
  apply NoDup_app. split_and!.
  - apply Hnd. by left.
  - intros b Hb (y & Hby & Hy)%list_elem_of_bind.
    apply list_elem_of_lookup in Hy as [j Hj].
    by apply (Hdisj 0%nat (S j) x y b).
  - apply IH.
    + intros y Hy. apply Hnd. by right.
    + intros i j y z b Hi Hj Hij. apply (Hdisj (S i) (S j) y z b); [done..|lia].
Qed.

(** C1: [AgentContainer] returns nil exactly when the concatenation of the
    deduplicated intercepts of the policies is empty, whatever the Pod; it
    returns nil for a configuration with no policy. *)
Theorem AgentContainer_nil_iff_no_ports `{Constants}
    (pod : core.Pod.t) (config : Sidecar) :
  (AgentContainer pod config = None ↔ Containers config ≫= PortUniqueIntercepts = [])
  ∧ (∀ image apiPort, AgentContainer pod (mkSidecar image apiPort []) = None).
Proof.
  split.
  - rewrite AgentContainer_eq. fold (interceptPorts config).
    by destruct (interceptPorts config).
  - intros image apiPort. by rewrite AgentContainer_eq.
Qed.

(** C2 does not hold as stated: two policies that declare the same agent
    port and port name give two entries with that port and that name. *)
Lemma AgentContainer_ports_repeat_across_policies :
  ∃ c, @AgentContainer sampleConstants webPod (mkSidecar "agent:2" 0 [webPolicy; apiPolicy])
       = Some c
       ∧ ¬ NoDup (core.ContainerPort.ContainerPort <$> core.Container.Ports c)
       ∧ ¬ NoDup (core.ContainerPort.Name <$> core.Container.Ports c).
Proof.
  eexists. split; [vm_compute; reflexivity|]. simpl.
  split; intros [Hnotin _]%NoDup_cons; apply Hnotin; by left.
Qed.

(** C2, amended: the ports of the returned container are, policy after
    policy, the deduplicated intercepts of each policy, each entry with
    the port name, the agent port and the protocol of its intercept as
    declared; the agent ports fitting in 32 bits, no two entries that come
    from the same policy have the same port, and no two entries at all
    have the same port when no agent port is declared by two different
    policies. *)
Theorem AgentContainer_ports_unique_per_policy `{Constants}
    (pod : core.Pod.t) (config : Sidecar) (c : core.Container.t) :
  AgentContainer pod config = Some c →
  (∀ cc ic, cc ∈ Containers config → ic ∈ Intercepts cc →
            - 2 ^ 31 ≤ AgentPort ic < 2 ^ 31) →
  core.Container.Ports c =
    Containers config ≫=
      (λ cc, (λ ic, core.ContainerPort.mk (ContainerPortName ic) (AgentPort ic)
                      (Protocol ic))
             <$> PortUniqueIntercepts cc)
  ∧ (∀ cc, cc ∈ Containers config →
       NoDup (core.ContainerPort.ContainerPort <$>
                ((λ ic, core.ContainerPort.mk (ContainerPortName ic) (AgentPort ic)
                          (Protocol ic))
                 <$> PortUniqueIntercepts cc)))
  ∧ (portsDisjoint config →
       NoDup (core.ContainerPort.ContainerPort <$> core.Container.Ports c)).
Proof.
  intros Hc Hrange. apply AgentContainer_Some in Hc as [_ ->]. simpl.
  assert (Hentry : ∀ cc, cc ∈ Containers config →
            containerPort <$> PortUniqueIntercepts cc
            = (λ ic, core.ContainerPort.mk (ContainerPortName ic) (AgentPort ic)
                       (Protocol ic))
              <$> PortUniqueIntercepts cc).
  { intros cc Hcc. apply list_fmap_ext. intros i ic Hic. unfold containerPort.
    rewrite int32_small; [done|]. apply (Hrange cc); [done|].
    eapply elem_of_sublist; [|apply uniqueFrom_sublist].
    eapply list_elem_of_lookup_2, Hic. }
  assert (Hports : ∀ cc,
            core.ContainerPort.ContainerPort <$>
              ((λ ic, core.ContainerPort.mk (ContainerPortName ic) (AgentPort ic)
                        (Protocol ic))
               <$> PortUniqueIntercepts cc)
            = AgentPort <$> PortUniqueIntercepts cc).
  { intros cc. rewrite <- list_fmap_compose. by apply list_fmap_ext. }
  assert (Hall : containerPort <$> interceptPorts config =
            Containers config ≫=
              (λ cc, (λ ic, core.ContainerPort.mk (ContainerPortName ic) (AgentPort ic)
                              (Protocol ic))
                     <$> PortUniqueIntercepts cc)).
  { unfold interceptPorts. rewrite fmap_of_bind. by apply bind_ext_in. }
  split_and!.
  - exact Hall.
  - intros cc Hcc. rewrite Hports. apply uniqueFrom_NoDup.
  - intros Hdisj. rewrite Hall, fmap_of_bind.
    rewrite (bind_ext_in _ (λ cc, AgentPort <$> PortUniqueIntercepts cc))
      by (intros cc _; apply Hports).
    apply NoDup_bind_positions.
    + intros cc _. apply uniqueFrom_NoDup.
    + intros i j cc1 cc2 p Hi Hj Hij (ic1 & Hp1 & Hic1)%list_elem_of_fmap
        (ic2 & Hp2 & Hic2)%list_elem_of_fmap.
      apply (Hdisj i j cc1 cc2 ic1 ic2); [done..| | |congruence].
      * eapply elem_of_sublist; [done|apply uniqueFrom_sublist].
      * eapply elem_of_sublist; [done|apply uniqueFrom_sublist].
Qed.

Lemma dedupSidecar_portsDisjoint : portsDisjoint dedupSidecar.
Proof.
  intros [|[|i]] [|[|j]] cc1 cc2 ic1 ic2 Hi Hj Hij Hic1 Hic2; simpl in *;
    try done; injection Hi as <-; injection Hj as <-; simpl in *;
    repeat (apply elem_of_cons in Hic1 as [->|Hic1]);
    try (by apply elem_of_nil in Hic1);
    repeat (apply elem_of_cons in Hic2 as [->|Hic2]);
    try (by apply elem_of_nil in Hic2); done.
Qed.

Lemma AgentContainer_ports_unique_per_policy_dedup :
  ∃ c,
    @AgentContainer sampleConstants twoPod dedupSidecar = Some c
    ∧ core.Container.Ports c =
        [core.ContainerPort.mk "http" 9900 "TCP";
         core.ContainerPort.mk "grpc" 9901 "TCP";
         core.ContainerPort.mk "admin" 9902 "UDP"]
    ∧ NoDup (core.ContainerPort.ContainerPort <$>
               ((λ ic, core.ContainerPort.mk (ContainerPortName ic) (AgentPort ic)
                         (Protocol ic))
                <$> PortUniqueIntercepts dedupWebPolicy))
    ∧ NoDup (core.ContainerPort.ContainerPort <$> core.Container.Ports c).
Proof.
  destruct (@AgentContainer sampleConstants twoPod dedupSidecar) as [c|] eqn:Hc;
    [|vm_compute in Hc; discriminate Hc].
  exists c.
  assert (Hrange : ∀ cc ic, cc ∈ Containers dedupSidecar → ic ∈ Intercepts cc →
            - 2 ^ 31 ≤ AgentPort ic < 2 ^ 31).
  { intros cc ic Hcc Hic. simpl in Hcc.
    repeat (apply elem_of_cons in Hcc as [->|Hcc]); [..|by apply elem_of_nil in Hcc];
      simpl in Hic;
      repeat (apply elem_of_cons in Hic as [->|Hic]);
      try (by apply elem_of_nil in Hic); simpl; lia. }
  destruct (@AgentContainer_ports_unique_per_policy sampleConstants
              twoPod dedupSidecar c Hc Hrange) as (Hports & Hpolicy & Hnodup).
  split_and!.
  - reflexivity.
  - rewrite Hports. vm_compute. reflexivity.
  - apply Hpolicy. apply list_elem_of_here.
  - exact (Hnodup dedupSidecar_portsDisjoint).
Defined.

(** ** The Environment Composer *)

Lemma list_ascii_of_string_app (s1 s2 : string) :
  list_ascii_of_string (s1 +:+ s2) = list_ascii_of_string s1 ++ list_ascii_of_string s2.
Proof. induction s1 as [|a s1 IH]; simpl; [done|]. by rewrite <- IH. Qed.

Lemma list_ascii_of_string_eq (s1 s2 : string) :
  list_ascii_of_string s1 = list_ascii_of_string s2 → s1 = s2.
Proof.
  intros Heq. rewrite <- (string_of_list_ascii_of_string s1), Heq.
  apply string_of_list_ascii_of_string.
Qed.

Lemma append_cancel_r (s1 s2 t : string) : s1 +:+ t = s2 +:+ t → s1 = s2.
Proof.
  intros Heq. apply list_ascii_of_string_eq.
  apply (f_equal list_ascii_of_string) in Heq.
  rewrite !list_ascii_of_string_app in Heq. by apply app_inv_tail in Heq.
Qed.

Lemma matched_twoPod :
  matched twoPod twoSidecar =
  [(appContainer "web" [core.EnvVar.mk "PORT" "8080" None]
       [core.VolumeMount.mk "web-token" true "/var/run/secrets/x" EmptyString None EmptyString;
        core.VolumeMount.mk "data" false "/data" "sub" None EmptyString], webPolicy);
   (appContainer "api" [core.EnvVar.mk "PORT" "9090" None]
       [core.VolumeMount.mk "api-token" true "/var/run/secrets/x" EmptyString None EmptyString],
    apiPolicy)].
Proof. vm_compute. reflexivity. Qed.

Example AgentContainer_two :
  @AgentContainer sampleConstants twoPod twoSidecar = Some twoAgent.
Proof. vm_compute. reflexivity. Qed.

(** C5: two matched containers whose policies have different [EnvPrefix]
    values and that declare a variable of the same name contribute two
    variables with different names to the environment of the agent. *)
Theorem renamed_env_distinct `{Constants}
    (pod : core.Pod.t) (config : Sidecar) (c : core.Container.t)
    (app1 app2 : core.Container.t) (cc1 cc2 : Container) (e1 e2 : core.EnvVar.t) :
  AgentContainer pod config = Some c →
  (app1, cc1) ∈ matched pod config →
  (app2, cc2) ∈ matched pod config →
  EnvPrefix cc1 ≠ EnvPrefix cc2 →
  e1 ∈ core.Container.Env app1 →
  e2 ∈ core.Container.Env app2 →
  core.EnvVar.Name e1 = core.EnvVar.Name e2 →
  renameEnv cc1 e1 ∈ core.Container.Env c
  ∧ renameEnv cc2 e2 ∈ core.Container.Env c
  ∧ core.EnvVar.Name (renameEnv cc1 e1) ≠ core.EnvVar.Name (renameEnv cc2 e2).
Proof.
  intros Hc Hm1 Hm2 Hprefix He1 He2 Hname.
  apply AgentContainer_Some in Hc as [_ ->]. simpl.
  assert (Hin : ∀ app cc e, (app, cc) ∈ matched pod config → e ∈ core.Container.Env app →
            renameEnv cc e ∈ composedEnv pod config ++ fixedEnv config).
  { intros app cc e Hm He. apply elem_of_app. left.
    apply list_elem_of_bind. exists (app, cc). split; [|done].
    simpl. by apply list_elem_of_fmap_2. }
  split_and!; [by eapply Hin..|].
  rewrite Hname. intros Heq. apply Hprefix.
  apply (inj (String.append EnvPrefixApp)) in Heq. by apply append_cancel_r in Heq.
Qed.

Lemma renamed_env_distinct_two :
  core.EnvVar.mk "_TEL_APP_WEB_PORT" "8080" None ∈ core.Container.Env twoAgent
  ∧ core.EnvVar.mk "_TEL_APP_API_PORT" "9090" None ∈ core.Container.Env twoAgent
  ∧ "_TEL_APP_WEB_PORT" ≠ "_TEL_APP_API_PORT".
Proof.
  refine (@renamed_env_distinct sampleConstants twoPod twoSidecar twoAgent
            _ _ webPolicy apiPolicy
            (core.EnvVar.mk "PORT" "8080" None) (core.EnvVar.mk "PORT" "9090" None)
            AgentContainer_two _ _ _ _ _ _).
  - rewrite matched_twoPod. apply list_elem_of_here.
  - rewrite matched_twoPod. apply list_elem_of_further, list_elem_of_here.
  - simpl. discriminate.
  - apply list_elem_of_here.
  - apply list_elem_of_here.
  - reflexivity.
Defined.

(** C6: the environment of the returned container consists of the
    variables of the matched containers, in the order of the matches, each
    with its name prefixed by the agent-env prefix and the [EnvPrefix] of
    its policy and with its value and value source unchanged, followed by
    the API-port variable exactly when [APIPort] is positive, then the
    pod-IP variable, then the pod-name variable. *)
Theorem AgentContainer_env_order `{Constants}
    (pod : core.Pod.t) (config : Sidecar) (c : core.Container.t) :
  AgentContainer pod config = Some c →
  core.Container.Env c =
    (matched pod config ≫=
       (λ p, (λ e, core.EnvVar.mk
                     (EnvPrefixApp +:+ EnvPrefix p.2 +:+ core.EnvVar.Name e)
                     (core.EnvVar.Value e) (core.EnvVar.ValueFrom e))
             <$> core.Container.Env p.1))
    ++ (if 0 <? APIPort config
        then [core.EnvVar.mk EnvAPIPort (strconv.Itoa (APIPort config)) None]
        else [])
    ++ [core.EnvVar.mk (EnvPrefixAgent +:+ "POD_IP") EmptyString
          (Some (core.EnvVarSource.mk
                   (Some (core.ObjectFieldSelector.mk "v1" "status.podIP"))
                   None None None));
        core.EnvVar.mk (EnvPrefixAgent +:+ "NAME") EmptyString
          (Some (core.EnvVarSource.mk
                   (Some (core.ObjectFieldSelector.mk "v1" "metadata.name"))
                   None None None))].
Proof. intros Hc. by apply AgentContainer_Some in Hc as [_ ->]. Qed.

Lemma AgentContainer_env_order_two :
  @AgentContainer sampleConstants twoPod twoSidecar = Some twoAgent
  ∧ core.Container.Env twoAgent =
      [core.EnvVar.mk "_TEL_APP_WEB_PORT" "8080" None;
       core.EnvVar.mk "_TEL_APP_API_PORT" "9090" None;
       core.EnvVar.mk "TELEPRESENCE_API_PORT" "8081" None;
       fieldRefVar "_TEL_AGENT_POD_IP" "status.podIP";
       fieldRefVar "_TEL_AGENT_NAME" "metadata.name"].
Proof.
  assert (Hc : @AgentContainer sampleConstants twoPod twoSidecar = Some twoAgent)
    by (vm_compute; reflexivity).
  split; [exact Hc|].
  rewrite (@AgentContainer_env_order sampleConstants twoPod twoSidecar twoAgent Hc).
  vm_compute. reflexivity.
Defined.

(** ** The Container Assembler: what depends on the Pod *)

Lemma matched_none (pod : core.Pod.t) (config : Sidecar) :
  (∀ cc app, cc ∈ Containers config → app ∈ core.Pod.Containers pod →
             core.Container.Name app ≠ Name cc) →
  matched pod config = [].
Proof.
  intros Hnone. unfold matched.
  induction (Containers config) as [|cc l IH]; csimpl; [done|].
  assert (firstNamed (core.Pod.Containers pod) (Name cc) = None) as ->.
  { apply firstNamed_None. intros app Happ. apply Hnone; [by left|done]. }
  simpl. apply IH. intros cc' app Hcc'. apply Hnone. by right.
Qed.

(** C10: for a configuration with at least one deduplicated intercept,
    [AgentContainer] returns a container for every Pod, with the same
    ports for any two Pods; for a Pod in which no container has the name
    of a policy, that container has all the ports, only the variables and
    the three mounts that [AgentContainer] adds itself, and no
    environment source. *)
Theorem AgentContainer_ports_independent_of_pod `{Constants}
    (pod1 pod2 : core.Pod.t) (config : Sidecar) :
  Containers config ≫= PortUniqueIntercepts ≠ [] →
  (∀ cc app, cc ∈ Containers config → app ∈ core.Pod.Containers pod2 →
             core.Container.Name app ≠ Name cc) →
  ∃ c1 c2,
    AgentContainer pod1 config = Some c1
    ∧ AgentContainer pod2 config = Some c2
    ∧ core.Container.Ports c1 = core.Container.Ports c2
    ∧ core.Container.Ports c2 =
        containerPort <$> (Containers config ≫= PortUniqueIntercepts)
    ∧ core.Container.Env c2 =
        (if 0 <? APIPort config
         then [core.EnvVar.mk EnvAPIPort (strconv.Itoa (APIPort config)) None]
         else [])
        ++ [fieldRefVar (EnvPrefixAgent +:+ "POD_IP") "status.podIP";
            fieldRefVar (EnvPrefixAgent +:+ "NAME") "metadata.name"]
    ∧ core.Container.EnvFrom c2 = []
    ∧ core.Container.VolumeMounts c2 =
        [plainMount AnnotationVolumeName AnnotationMountPoint;
         plainMount ConfigVolumeName ConfigMountPoint;
         plainMount ExportsVolumeName ExportsMountPoint].
Proof.
  intros Hports Hnone. fold (interceptPorts config) in *.
  rewrite !AgentContainer_eq.
  destruct (interceptPorts config) as [|ic ics] eqn:Heq; [done|].
  eexists _, _. split_and!; try reflexivity; simpl.
  - unfold composedEnv. by rewrite matched_none.
  - unfold composedEnvFrom. by rewrite matched_none.
  - unfold composedMounts, mountWork. by rewrite matched_none.
Qed.

Lemma AgentContainer_ports_independent_of_pod_web :
  ∃ c1 c2,
    @AgentContainer sampleConstants webPod webSidecar = Some c1
    ∧ @AgentContainer sampleConstants otherPod webSidecar = Some c2
    ∧ core.Container.Ports c1 = core.Container.Ports c2
    ∧ core.Container.Ports c2 = [core.ContainerPort.mk "http" 9900 "TCP"]
    ∧ core.Container.Env c2 =
        [fieldRefVar "_TEL_AGENT_POD_IP" "status.podIP";
         fieldRefVar "_TEL_AGENT_NAME" "metadata.name"]
    ∧ core.Container.EnvFrom c2 = []
    ∧ core.Container.VolumeMounts c2 =
        [plainMount "traffic-annotations" "/tel_pod_info";
         plainMount "traffic-config" "/etc/traffic-agent";
         plainMount "export-volume" "/tel_app_exports"].
Proof.
  apply (@AgentContainer_ports_independent_of_pod sampleConstants
           webPod otherPod webSidecar).
  - vm_compute. discriminate.
  - intros cc app ->%list_elem_of_singleton ->%list_elem_of_singleton.
    simpl. discriminate.
Defined.

(** ** The Volume-Mount Composer *)

Lemma TrimPrefix_one_slash (path : string) :
  strings.TrimPrefix path "/" = stripLeadingSlash path.
Proof.
  unfold strings.TrimPrefix. destruct path as [|a rest]; [done|]. simpl.
  destruct (Ascii.eqb a "/") eqn:Ha; simpl.
  - by apply Ascii.eqb_eq in Ha as ->.
  - destruct a as [[] [] [] [] [] [] [] []]; done.
Qed.

Lemma mountStep_ignored ignored cc mounts m :
  core.VolumeMount.Name m ∈ ignored → mountStep ignored cc mounts m = mounts.
Proof. intros Hin. unfold mountStep. by rewrite decide_True. Qed.

Lemma mountStep_vrs ignored cc mounts m :
  core.VolumeMount.Name m ∉ ignored →
  isVrs (core.VolumeMount.MountPath m) = true →
  mountStep ignored cc mounts m = if vrsAdded mounts then mounts else mounts ++ [m].
Proof. intros Hnot Hvrs. unfold mountStep. by rewrite decide_False, Hvrs. Qed.

Lemma mountStep_relocated ignored cc mounts m :
  core.VolumeMount.Name m ∉ ignored →
  isVrs (core.VolumeMount.MountPath m) = false →
  mountStep ignored cc mounts m = mounts ++ [relocated cc m].
Proof.
  intros Hnot Hvrs. unfold mountStep. rewrite decide_False, Hvrs by done.
  unfold relocated, setMountPath. by rewrite TrimPrefix_one_slash.
Qed.

Lemma mountStep_prefix ignored cc mounts m :
  mounts `prefix_of` mountStep ignored cc mounts m.
Proof.
  unfold mountStep. repeat case_match; try done; by apply prefix_app_r.
Qed.

Lemma composeMounts_app ignored work1 work2 mounts :
  composeMounts ignored (work1 ++ work2) mounts =
  composeMounts ignored work2 (composeMounts ignored work1 mounts).
Proof. apply foldl_app. Qed.

Lemma composeMounts_prefix ignored work mounts :
  mounts `prefix_of` composeMounts ignored work mounts.
Proof.
  revert mounts. induction work as [|[m cc] work IH]; intros mounts; simpl; [done|].
  etrans; [apply (mountStep_prefix ignored cc mounts m)|apply IH].
Qed.

Lemma composeMounts_filter ignored work mounts :
  composeMounts ignored work mounts =
  composeMounts ignored
    (List.filter (λ w, bool_decide (core.VolumeMount.Name w.1 ∉ ignored)) work) mounts.
Proof.
  revert mounts. induction work as [|[m cc] work IH]; intros mounts; simpl; [done|].
  case_bool_decide as Hm; simpl.
  - apply IH.
  - rewrite mountStep_ignored; [apply IH|done].
Qed.

Lemma composeMounts_names ignored work mounts x :
  x ∈ composeMounts ignored work mounts →
  x ∈ mounts ∨ core.VolumeMount.Name x ∉ ignored.
Proof.
  revert mounts. induction work as [|[m cc] work IH]; intros mounts; simpl; [by left|].
  intros [Hx|Hx]%IH; [|by right]. revert Hx. unfold mountStep.
  destruct (decide (core.VolumeMount.Name m ∈ ignored)); [by left|].
  destruct (isVrs (core.VolumeMount.MountPath m)); [destruct (vrsAdded mounts)|].
  - by left.
  - intros [?|Hx%list_elem_of_singleton]%elem_of_app; [by left|subst; by right].
  - intros [?|Hx%list_elem_of_singleton]%elem_of_app; [by left|subst; by right].
Qed.

Lemma composeMounts_relocated ignored work mounts m cc :
  (m, cc) ∈ work →
  core.VolumeMount.Name m ∉ ignored →
  isVrs (core.VolumeMount.MountPath m) = false →
  relocated cc m ∈ composeMounts ignored work mounts.
Proof.
  intros (pre & post & ->)%list_elem_of_split Hnot Hvrs.
  rewrite composeMounts_app. simpl. rewrite mountStep_relocated by done.
  eapply elem_of_prefix; [|apply composeMounts_prefix].
  apply elem_of_app. right. apply list_elem_of_here.
Qed.

Lemma mountWork_elem pod config m cc :
  (m, cc) ∈ mountWork pod config ↔
  ∃ app, (app, cc) ∈ matched pod config ∧ m ∈ core.Container.VolumeMounts app.
Proof.
  unfold mountWork. rewrite list_elem_of_bind. split.
  - intros ([app cc'] & (m' & [= -> ->] & Hm)%list_elem_of_fmap & Hp). eauto.
  - intros (app & Hp & Hm). exists (app, cc). split; [|done].
    apply list_elem_of_fmap. eauto.
Qed.

Lemma ignored_entries (l : list string) (acc : gset string) (name : string) :
  name ∈ foldl (λ ivms vm, {[strings.TrimSpace vm]} ∪ ivms) acc l ↔
  name ∈ acc ∨ ∃ entry, entry ∈ l ∧ name = strings.TrimSpace entry.
Proof.
  revert acc. induction l as [|vm l IH]; intros acc; simpl.
  - split; [by left|]. intros [?|(entry & ?%elem_of_nil & _)]; done.
  - rewrite IH, elem_of_union, elem_of_singleton. split.
    + intros [[->|?]|(entry & ? & ->)].
      * right. exists vm. split; [by left|done].
      * by left.
      * right. exists entry. split; [by right|done].
    + intros [?|(entry & [->|?]%elem_of_cons & ->)].
      * left. by right.
      * left. by left.
      * right. by exists entry.
Qed.

Lemma getIgnoredVolumeMounts_elem (annotations : gmap string string) (name : string) :
  name ∈ getIgnoredVolumeMounts annotations ↔
  ∃ entry,
    entry ∈ strings.Split
              (default EmptyString
                 (annotations !! "telepresence.getambassador.io/inject-ignore-volume-mounts"))
              ","
    ∧ name = strings.TrimSpace entry.
Proof.
  unfold getIgnoredVolumeMounts. rewrite ignored_entries. split; [|by right].
  intros [?%not_elem_of_empty|?]; done.
Qed.

Lemma getIgnoredVolumeMounts_absent (annotations : gmap string string) (name : string) :
  annotations !! "telepresence.getambassador.io/inject-ignore-volume-mounts" = None →
  name ∈ getIgnoredVolumeMounts annotations ↔ name = EmptyString.
Proof.
  intros Habsent. rewrite getIgnoredVolumeMounts_elem, Habsent. simpl.
  change (strings.Split EmptyString ",") with [EmptyString]. split.
  - by intros (entry & ->%list_elem_of_singleton & ->).
  - intros ->. exists EmptyString. split; [apply list_elem_of_here|done].
Qed.

Lemma countVrs_app (l1 l2 : list core.VolumeMount.t) :
  countVrs (l1 ++ l2) = (countVrs l1 + countVrs l2)%nat.
Proof. unfold countVrs. by rewrite List.filter_app, length_app. Qed.

Lemma countVrs_single (x : core.VolumeMount.t) :
  countVrs [x] = if isVrs (core.VolumeMount.MountPath x) then 1%nat else 0%nat.
Proof. unfold countVrs. simpl. by destruct (isVrs _). Qed.

Lemma vrsAdded_false_count (l : list core.VolumeMount.t) :
  vrsAdded l = false → countVrs l = 0%nat.
Proof.
  unfold vrsAdded, countVrs. induction l as [|x l IH]; simpl; [done|].
  destruct (isVrs (core.VolumeMount.MountPath x)); simpl; [done|apply IH].
Qed.

Lemma vrsAdded_true_elem (l : list core.VolumeMount.t) :
  vrsAdded l = true ↔ ∃ x, x ∈ l ∧ isVrs (core.VolumeMount.MountPath x) = true.
Proof.
  unfold vrsAdded. rewrite existsb_exists. split.
  - intros (x & Hx%list_elem_of_In & ?). eauto.
  - intros (x & Hx%list_elem_of_In & ?). eauto.
Qed.

Lemma mountStep_count ignored cc mounts m :
  (isVrs (core.VolumeMount.MountPath m) = false →
   isVrs (core.VolumeMount.MountPath (relocated cc m)) = false) →
  (countVrs mounts ≤ 1)%nat →
  (countVrs (mountStep ignored cc mounts m) ≤ 1)%nat.
Proof.
  intros Hreloc Hle.
  destruct (decide (core.VolumeMount.Name m ∈ ignored)) as [Hin|Hnot].
  { by rewrite mountStep_ignored. }
  destruct (isVrs (core.VolumeMount.MountPath m)) eqn:Hvrs.
  - rewrite mountStep_vrs by done. destruct (vrsAdded mounts) eqn:Hadded; [done|].
    by rewrite countVrs_app, (vrsAdded_false_count _ Hadded), countVrs_single, Hvrs.
  - rewrite mountStep_relocated, countVrs_app, countVrs_single, Hreloc by done. lia.
Qed.

Lemma composeMounts_count_le ignored work mounts :
  (∀ m cc, (m, cc) ∈ work → isVrs (core.VolumeMount.MountPath m) = false →
           isVrs (core.VolumeMount.MountPath (relocated cc m)) = false) →
  (countVrs mounts ≤ 1)%nat →
  (countVrs (composeMounts ignored work mounts) ≤ 1)%nat.
Proof.
  revert mounts. induction work as [|[m cc] work IH]; intros mounts Hreloc Hle; simpl; [done|].
  apply IH.
  - intros m' cc' Hin. apply Hreloc. by right.
  - apply mountStep_count; [|done]. apply Hreloc. by left.
Qed.

Lemma composeMounts_count_mono ignored work mounts :
  (countVrs mounts ≤ countVrs (composeMounts ignored work mounts))%nat.
Proof.
  destruct (composeMounts_prefix ignored work mounts) as [k ->].
  rewrite countVrs_app. lia.
Qed.

Lemma composeMounts_credential ignored pre m cc post :
  core.VolumeMount.Name m ∉ ignored →
  isVrs (core.VolumeMount.MountPath m) = true →
  composeMounts ignored (pre ++ (m, cc) :: post) [] =
  composeMounts ignored post
    (if vrsAdded (composeMounts ignored pre [])
     then composeMounts ignored pre []
     else composeMounts ignored pre [] ++ [m]).
Proof.
  intros Hnot Hvrs. rewrite composeMounts_app. simpl. by rewrite mountStep_vrs.
Qed.

Lemma composeMounts_credential_count ignored pre m cc post :
  core.VolumeMount.Name m ∉ ignored →
  isVrs (core.VolumeMount.MountPath m) = true →
  (1 ≤ countVrs (composeMounts ignored (pre ++ (m, cc) :: post) []))%nat.
Proof.
  intros Hnot Hvrs. rewrite composeMounts_credential by done.
  etrans; [|apply composeMounts_count_mono].
  destruct (vrsAdded (composeMounts ignored pre [])) eqn:Hadded.
  - apply vrsAdded_true_elem in Hadded as (x & Hx & Hxvrs).
    apply list_elem_of_split in Hx as (l1 & l2 & ->).
    change (x :: l2) with ([x] ++ l2).
    rewrite !countVrs_app, countVrs_single, Hxvrs. lia.
  - rewrite countVrs_app, countVrs_single, Hvrs. lia.
Qed.

Lemma mountWork_twoPod :
  mountWork twoPod twoSidecar =
  [] ++ (core.VolumeMount.mk "web-token" true "/var/run/secrets/x" EmptyString None EmptyString,
         webPolicy)
     :: [(core.VolumeMount.mk "data" false "/data" "sub" None EmptyString, webPolicy);
         (core.VolumeMount.mk "api-token" true "/var/run/secrets/x" EmptyString None EmptyString,
          apiPolicy)].
Proof. vm_compute. reflexivity. Qed.

Lemma not_ignored_twoPod (name : string) :
  name ≠ EmptyString → name ∉ ignoredOf twoPod.
Proof. intros Hne Hin. by apply getIgnoredVolumeMounts_absent in Hin. Qed.

(** C3 does not hold as stated: the second credential mount of a
    container is skipped although no mount was copied for a previous
    container, and two containers whose credential mounts are named in the
    ignore annotation leave no mount under the reserved prefix. *)
Lemma credential_mount_skipped_without_previous_container :
  (∃ c, @AgentContainer sampleConstants tokensPod webSidecar = Some c
        ∧ matched tokensPod webSidecar =
            [(appContainer "web" []
                [core.VolumeMount.mk "token-a" true "/var/run/secrets/a" EmptyString None
                   EmptyString;
                 core.VolumeMount.mk "token-b" true "/var/run/secrets/b" EmptyString None
                   EmptyString],
              webPolicy)]
        ∧ core.Container.VolumeMounts c =
            [core.VolumeMount.mk "token-a" true "/var/run/secrets/a" EmptyString None
               EmptyString;
             plainMount "traffic-annotations" "/tel_pod_info";
             plainMount "traffic-config" "/etc/traffic-agent";
             plainMount "export-volume" "/tel_app_exports"])
  ∧ (∃ c, @AgentContainer sampleConstants ignoringPod twoSidecar = Some c
          ∧ countVrs (core.Container.VolumeMounts c) = 0%nat).
Proof.
  split; eexists; split_and!; vm_compute; reflexivity.
Qed.

(** C3, amended: a credential mount whose name is not ignored is copied
    with its path unchanged, and it is skipped exactly when the list
    accumulated before it, from earlier mounts of the same container as
    well as from previous containers, already has a mount under the
    reserved prefix; consequently, when the relocated paths of the other
    mounts and the three fixed mount points are outside the prefix, the
    assembled list has exactly one mount under the prefix. *)
Theorem credential_mount_copied_once `{Constants}
    (pod : core.Pod.t) (config : Sidecar) (c : core.Container.t)
    (pre post : list (core.VolumeMount.t * Container))
    (m : core.VolumeMount.t) (cc : Container) :
  AgentContainer pod config = Some c →
  mountWork pod config = pre ++ (m, cc) :: post →
  isVrs (core.VolumeMount.MountPath m) = true →
  core.VolumeMount.Name m ∉ ignoredOf pod →
  core.Container.VolumeMounts c =
    composeMounts (ignoredOf pod) post
      (if vrsAdded (composeMounts (ignoredOf pod) pre [])
       then composeMounts (ignoredOf pod) pre []
       else composeMounts (ignoredOf pod) pre [] ++ [m])
    ++ [plainMount AnnotationVolumeName AnnotationMountPoint;
        plainMount ConfigVolumeName ConfigMountPoint;
        plainMount ExportsVolumeName ExportsMountPoint]
  ∧ ((∀ m' cc', (m', cc') ∈ mountWork pod config →
                isVrs (core.VolumeMount.MountPath m') = false →
                isVrs (MountPoint cc' +:+ "/" +:+
                       strings.TrimPrefix (core.VolumeMount.MountPath m') "/") = false) →
     isVrs AnnotationMountPoint = false →
     isVrs ConfigMountPoint = false →
     isVrs ExportsMountPoint = false →
     countVrs (core.Container.VolumeMounts c) = 1%nat).
Proof.
  intros Hc Hwork Hvrs Hnot. apply AgentContainer_Some in Hc as [_ ->]. simpl.
  unfold composedMounts. rewrite Hwork. split.
  - by rewrite composeMounts_credential.
  - intros Hreloc Ha Hc He. rewrite countVrs_app.
    assert (countVrs fixedMounts = 0%nat) as ->.
    { unfold countVrs, fixedMounts. simpl. by rewrite Ha, Hc, He. }
    pose proof (composeMounts_credential_count (ignoredOf pod) pre m cc post Hnot Hvrs).
    pose proof (composeMounts_count_le (ignoredOf pod) (pre ++ (m, cc) :: post) []) as Hle.
    unfold countVrs at 1 in Hle. simpl in Hle.
    assert (countVrs (composeMounts (ignoredOf pod) (pre ++ (m, cc) :: post) []) ≤ 1)%nat;
      [|lia].
    apply Hle; [|lia]. intros m' cc' Hin Hm'. simpl.
    rewrite <- TrimPrefix_one_slash. by apply Hreloc.
Qed.

Lemma credential_mount_copied_once_two :
  @AgentContainer sampleConstants twoPod twoSidecar = Some twoAgent
  ∧ core.Container.VolumeMounts twoAgent =
      [core.VolumeMount.mk "web-token" true "/var/run/secrets/x" EmptyString None EmptyString;
       core.VolumeMount.mk "data" false "/app/data" "sub" None EmptyString;
       plainMount "traffic-annotations" "/tel_pod_info";
       plainMount "traffic-config" "/etc/traffic-agent";
       plainMount "export-volume" "/tel_app_exports"]
  ∧ countVrs (core.Container.VolumeMounts twoAgent) = 1%nat.
Proof.
  assert (Hc : @AgentContainer sampleConstants twoPod twoSidecar = Some twoAgent)
    by (vm_compute; reflexivity).
  assert (Hnot : "web-token" ∉ ignoredOf twoPod) by (by apply not_ignored_twoPod).
  destruct (@credential_mount_copied_once sampleConstants twoPod twoSidecar twoAgent
              _ _ _ _ Hc mountWork_twoPod eq_refl Hnot) as [Hmounts Hcount].
  split_and!; [exact Hc|reflexivity|].
  apply Hcount; [|reflexivity..].
  intros m' cc' Hin Hm'. rewrite mountWork_twoPod in Hin. simpl in Hin.
  repeat (apply elem_of_cons in Hin as [[= -> ->]|Hin]); try done.
  by apply elem_of_nil in Hin.
Defined.

(** C9: a mount of a matched container that is neither ignored nor under
    the reserved prefix is in the assembled list with its path replaced
    by the mount point of the policy, a slash, and the original path
    without its leading slash if it has one, and with its other fields
    unchanged; the path /data under the mount point /app becomes
    /app/data. *)
Theorem relocated_mount_in_agent `{Constants}
    (pod : core.Pod.t) (config : Sidecar) (c : core.Container.t)
    (app : core.Container.t) (cc : Container) (m : core.VolumeMount.t) :
  AgentContainer pod config = Some c →
  (app, cc) ∈ matched pod config →
  m ∈ core.Container.VolumeMounts app →
  core.VolumeMount.Name m ∉ ignoredOf pod →
  isVrs (core.VolumeMount.MountPath m) = false →
  core.VolumeMount.mk (core.VolumeMount.Name m) (core.VolumeMount.ReadOnly m)
    (MountPoint cc +:+ "/" +:+ stripLeadingSlash (core.VolumeMount.MountPath m))
    (core.VolumeMount.SubPath m) (core.VolumeMount.MountPropagation m)
    (core.VolumeMount.SubPathExpr m)
    ∈ core.Container.VolumeMounts c
  ∧ (∀ mounts name readOnly subPath propagation subPathExpr,
       MountPoint cc = "/app" → name ∉ ignoredOf pod →
       mountStep (ignoredOf pod) cc mounts
         (core.VolumeMount.mk name readOnly "/data" subPath propagation subPathExpr)
       = mounts ++
         [core.VolumeMount.mk name readOnly "/app/data" subPath propagation subPathExpr]).
Proof.
  intros Hc Hmatched Hm Hnot Hvrs. apply AgentContainer_Some in Hc as [_ ->]. simpl.
  split.
  - apply elem_of_app. left. unfold composedMounts.
    apply (composeMounts_relocated _ _ _ m cc); [|done..].
    apply mountWork_elem. eauto.
  - intros mounts name readOnly subPath propagation subPathExpr Hpoint Hname.
    rewrite mountStep_relocated by done. unfold relocated. simpl. by rewrite Hpoint.
Qed.

Lemma relocated_mount_in_agent_two :
  @AgentContainer sampleConstants twoPod twoSidecar = Some twoAgent
  ∧ core.VolumeMount.mk "data" false "/app/data" "sub" None EmptyString
      ∈ core.Container.VolumeMounts twoAgent.
Proof.
  assert (Hc : @AgentContainer sampleConstants twoPod twoSidecar = Some twoAgent)
    by (vm_compute; reflexivity).
  split; [exact Hc|].
  refine (proj1 (@relocated_mount_in_agent sampleConstants twoPod twoSidecar twoAgent
                   _ webPolicy
                   (core.VolumeMount.mk "data" false "/data" "sub" None EmptyString)
                   Hc _ _ _ eq_refl)).
  - rewrite matched_twoPod. apply list_elem_of_here.
  - apply list_elem_of_further, list_elem_of_here.
  - by apply not_ignored_twoPod.
Defined.

Lemma composeMounts_credential_elem ignored work mounts m cc :
  (m, cc) ∈ work →
  core.VolumeMount.Name m ∉ ignored →
  isVrs (core.VolumeMount.MountPath m) = true →
  ∃ x, x ∈ composeMounts ignored work mounts
       ∧ isVrs (core.VolumeMount.MountPath x) = true.
Proof.
  intros (pre & post & ->)%list_elem_of_split Hnot Hvrs.
  rewrite composeMounts_app. simpl. rewrite mountStep_vrs by done.
  destruct (vrsAdded (composeMounts ignored pre mounts)) eqn:Hadded.
  - apply vrsAdded_true_elem in Hadded as (x & Hx & Hxvrs). exists x. split; [|done].
    eapply elem_of_prefix; [done|apply composeMounts_prefix].
  - exists m. split; [|done].
    eapply elem_of_prefix; [|apply composeMounts_prefix].
    apply elem_of_app. right. apply list_elem_of_here.
Qed.

(** C4 does not hold as stated: without the annotation the ignore-set is
    not empty, it holds the empty name, and a mount with an empty name is
    left out; and a mount whose name is not in the ignore-set is left out
    all the same when it is the second credential mount. *)
Lemma absent_annotation_ignores_empty_name :
  EmptyString ∈ getIgnoredVolumeMounts ∅
  ∧ (∃ c, @AgentContainer sampleConstants unnamedMountPod webSidecar = Some c
          ∧ core.Container.VolumeMounts c =
              [plainMount "traffic-annotations" "/tel_pod_info";
               plainMount "traffic-config" "/etc/traffic-agent";
               plainMount "export-volume" "/tel_app_exports"])
  ∧ ("token-b" ∉ getIgnoredVolumeMounts (core.Pod.Annotations tokensPod))
  ∧ (∃ c, @AgentContainer sampleConstants tokensPod webSidecar = Some c
          ∧ core.Container.VolumeMounts c =
              [core.VolumeMount.mk "token-a" true "/var/run/secrets/a" EmptyString None
                 EmptyString;
               plainMount "traffic-annotations" "/tel_pod_info";
               plainMount "traffic-config" "/etc/traffic-agent";
               plainMount "export-volume" "/tel_app_exports"]).
Proof.
  split_and!.
  - by apply getIgnoredVolumeMounts_absent.
  - eexists. split; vm_compute; reflexivity.
  - intros Hin. by apply getIgnoredVolumeMounts_absent in Hin.
  - eexists. split; vm_compute; reflexivity.
Qed.

(** C4, amended: the ignore-set holds the trimmed entries of the
    comma-separated value of the annotation; no mount copied from a
    matched container has a name of the ignore-set, and ignoring a mount
    leaves the rest of the composition as if the container did not have
    it; a mount whose name is not in the set is copied, unless it is a
    credential mount and the list already has a mount under the reserved
    prefix.  Without the annotation the value is the empty string, whose
    single entry is the empty name: the ignore-set then holds exactly the
    empty name. *)
Theorem ignored_mounts_not_copied `{Constants}
    (pod : core.Pod.t) (config : Sidecar) (c : core.Container.t) :
  AgentContainer pod config = Some c →
  (∀ name,
     name ∈ ignoredOf pod ↔
     ∃ entry,
       entry ∈ strings.Split
                 (default EmptyString
                    (core.Pod.Annotations pod
                       !! "telepresence.getambassador.io/inject-ignore-volume-mounts"))
                 ","
       ∧ name = strings.TrimSpace entry)
  ∧ (∃ copied,
       core.Container.VolumeMounts c =
         copied ++ [plainMount AnnotationVolumeName AnnotationMountPoint;
                    plainMount ConfigVolumeName ConfigMountPoint;
                    plainMount ExportsVolumeName ExportsMountPoint]
       ∧ (∀ x, x ∈ copied → core.VolumeMount.Name x ∉ ignoredOf pod)
       ∧ copied =
           composeMounts (ignoredOf pod)
             (List.filter (λ w, bool_decide (core.VolumeMount.Name w.1 ∉ ignoredOf pod))
                (mountWork pod config))
             [])
  ∧ (∀ app cc m,
       (app, cc) ∈ matched pod config → m ∈ core.Container.VolumeMounts app →
       core.VolumeMount.Name m ∉ ignoredOf pod →
       if isVrs (core.VolumeMount.MountPath m)
       then ∃ x, x ∈ core.Container.VolumeMounts c
                 ∧ isVrs (core.VolumeMount.MountPath x) = true
       else relocated cc m ∈ core.Container.VolumeMounts c)
  ∧ (core.Pod.Annotations pod
       !! "telepresence.getambassador.io/inject-ignore-volume-mounts" = None →
     ∀ name, name ∈ ignoredOf pod ↔ name = EmptyString).
Proof.
  intros Hc. apply AgentContainer_Some in Hc as [_ ->]. simpl. split_and!.
  - intros name. apply getIgnoredVolumeMounts_elem.
  - exists (composedMounts pod config). split_and!.
    + done.
    + intros x Hx. unfold composedMounts in Hx.
      apply composeMounts_names in Hx as [?%elem_of_nil|?]; done.
    + apply composeMounts_filter.
  - intros app cc m Hmatched Hm Hnot.
    assert (Hwork : (m, cc) ∈ mountWork pod config) by (apply mountWork_elem; eauto).
    destruct (isVrs (core.VolumeMount.MountPath m)) eqn:Hvrs.
    + destruct (composeMounts_credential_elem (ignoredOf pod) _ [] m cc Hwork Hnot Hvrs)
        as (x & Hx & Hxvrs).
      exists x. split; [|done]. apply elem_of_app. by left.
    + apply elem_of_app. left. by apply composeMounts_relocated.
  - intros Habsent name. by apply getIgnoredVolumeMounts_absent.
Qed.

Lemma ignored_mounts_not_copied_ignoring :
  ∃ c, @AgentContainer sampleConstants ignoringPod twoSidecar = Some c
       ∧ (∀ name, name ∈ ignoredOf ignoringPod ↔
                  ∃ entry, entry ∈ ["web-token"; " api-token"]
                           ∧ name = strings.TrimSpace entry)
       ∧ core.Container.VolumeMounts c =
           [core.VolumeMount.mk "data" false "/app/data" "sub" None EmptyString;
            plainMount "traffic-annotations" "/tel_pod_info";
            plainMount "traffic-config" "/etc/traffic-agent";
            plainMount "export-volume" "/tel_app_exports"].
Proof.
  eexists.
  assert (Hc : @AgentContainer sampleConstants ignoringPod twoSidecar = Some _)
    by (vm_compute; reflexivity).
  split; [exact Hc|].
  destruct (@ignored_mounts_not_copied sampleConstants ignoringPod twoSidecar _ Hc)
    as (Hset & _).
  split; [exact Hset|reflexivity].
Defined.

(** ** Further properties of the assembler *)

Lemma HasPrefix_app (a b : string) : strings.HasPrefix (a +:+ b) a = true.
Proof.
  induction a as [|c a IH]; [done|]. simpl.
  by rewrite Ascii.eqb_refl, IH.
Qed.

Lemma HasPrefix_app_app (a b c : string) :
  strings.HasPrefix (a +:+ b +:+ c) (a +:+ b) = true.
Proof.
  induction a as [|d a IH]; [exact (HasPrefix_app b c)|]. simpl.
  by rewrite Ascii.eqb_refl, IH.
Qed.

Lemma HasPrefix_common (a b x y : string) :
  a +:+ x = b +:+ y → strings.HasPrefix b a = true ∨ strings.HasPrefix a b = true.
Proof.
  revert b. induction a as [|c a IH]; intros b Heq; [by left|].
  destruct b as [|d b]; [by right|].
  injection Heq as -> Heq. simpl. rewrite Ascii.eqb_refl. simpl. by apply IH.
Qed.

Lemma firstNamed_unique (cns : list core.Container.t) (name : string)
    (app : core.Container.t) :
  NoDup (core.Container.Name <$> cns) →
  firstNamed cns name = Some app ↔ app ∈ cns ∧ core.Container.Name app = name.
Proof.
  intros Hnodup. rewrite firstNamed_Some. split.
  - intros (i & Hi & Hname & _). split; [|done]. by eapply list_elem_of_lookup_2.
  - intros [(i & Hi)%list_elem_of_lookup Hname]. exists i. split_and!; [done..|].
    intros j other Hj Hlt Hother.
    assert (j = i); [|lia].
    eapply NoDup_lookup; [done| |].
    + by rewrite list_lookup_fmap, Hj.
    + rewrite list_lookup_fmap, Hi. simpl. congruence.
Qed.

Lemma firstNamed_Permutation (cns1 cns2 : list core.Container.t) (name : string) :
  NoDup (core.Container.Name <$> cns1) → cns1 ≡ₚ cns2 →
  firstNamed cns1 name = firstNamed cns2 name.
Proof.
  intros Hnodup Hperm.
  assert (Hnodup2 : NoDup (core.Container.Name <$> cns2)) by (by rewrite <- Hperm).
  destruct (firstNamed cns1 name) as [app|] eqn:Hfirst.
  - symmetry. apply firstNamed_unique; [done|].
    apply firstNamed_unique in Hfirst as [Hin Hname]; [|done]. by rewrite <- Hperm.
  - symmetry. apply firstNamed_None. intros app Happ.
    rewrite firstNamed_None in Hfirst. apply Hfirst. by rewrite Hperm.
Qed.

Lemma composeMounts_origin ignored work mounts x :
  x ∈ composeMounts ignored work mounts →
  x ∈ mounts ∨
  ∃ m cc, (m, cc) ∈ work ∧ (core.VolumeMount.Name m ∉ ignored) ∧
          (if isVrs (core.VolumeMount.MountPath m) then x = m else x = relocated cc m).
Proof.
  revert mounts. induction work as [|[m cc] work IH]; intros mounts; simpl; [by left|].
  intros [Hx|(m' & cc' & Hin & Hrest)]%IH.
  - destruct (decide (core.VolumeMount.Name m ∈ ignored)) as [Hign|Hnot].
    { rewrite mountStep_ignored in Hx by done. by left. }
    destruct (isVrs (core.VolumeMount.MountPath m)) eqn:Hvrs.
    + rewrite mountStep_vrs in Hx by done.
      destruct (vrsAdded mounts); [by left|].
      apply elem_of_app in Hx as [?|Hx%list_elem_of_singleton]; [by left|].
      right. exists m, cc. split_and!; [by left|done|by rewrite Hvrs].
    + rewrite mountStep_relocated in Hx by done.
      apply elem_of_app in Hx as [?|Hx%list_elem_of_singleton]; [by left|].
      right. exists m, cc. split_and!; [by left|done|by rewrite Hvrs].
  - right. exists m', cc'. split; [by right|done].
Qed.

Lemma composeMounts_no_credentials ignored work mounts :
  (∀ m cc, (m, cc) ∈ work → isVrs (core.VolumeMount.MountPath m) = false) →
  composeMounts ignored work mounts =
  mounts ++ ((λ w, relocated w.2 w.1) <$>
               List.filter (λ w, bool_decide (core.VolumeMount.Name w.1 ∉ ignored)) work).
Proof.
  revert mounts. induction work as [|[m cc] work IH]; intros mounts Hnone; simpl.
  - by rewrite app_nil_r.
  - rewrite IH by (intros m' cc' Hin; apply (Hnone m' cc'); by right).
    pose proof (Hnone m cc ltac:(by left)) as Hm.
    case_bool_decide as Hign; simpl.
    + rewrite mountStep_relocated by done. by rewrite <- app_assoc.
    + by rewrite mountStep_ignored.
Qed.

Lemma relocated_not_ignored (ignored : gset string) (cc : Container)
    (ms : list core.VolumeMount.t) :
  (λ w, relocated w.2 w.1) <$>
    List.filter (λ w : core.VolumeMount.t * Container,
                   bool_decide (core.VolumeMount.Name w.1 ∉ ignored))
      ((λ m, (m, cc)) <$> ms)
  = (λ m, setMountPath m
            (MountPoint cc +:+ "/" +:+
             strings.TrimPrefix (core.VolumeMount.MountPath m) "/"))
    <$> List.filter (λ m, bool_decide (core.VolumeMount.Name m ∉ ignored)) ms.
Proof.
  induction ms as [|m ms IH]; [done|]. rewrite fmap_cons. simpl.
  case_bool_decide; [|done]. rewrite !fmap_cons, IH. f_equal.
  unfold relocated, setMountPath. simpl. by rewrite TrimPrefix_one_slash.
Qed.

Lemma AgentContainer_same_matches `{Constants} pod1 pod2 config :
  core.Pod.Annotations pod1 = core.Pod.Annotations pod2 →
  matched pod1 config = matched pod2 config →
  AgentContainer pod1 config = AgentContainer pod2 config.
Proof.
  intros Hann Hmatched. rewrite !AgentContainer_eq.
  unfold composedEnv, composedEnvFrom, composedMounts, mountWork.
  by rewrite Hann, Hmatched.
Qed.

(** X1: the last three mounts of the agent container name, in the same
    order, the three volumes that [AgentVolumes] returns, for every agent
    name. *)
Theorem AgentVolumes_back_fixed_mounts `{Constants} `{VolumeConstants}
    (pod : core.Pod.t) (config : Sidecar) (c : core.Container.t) (agentName : string) :
  AgentContainer pod config = Some c →
  ∃ copied fixed,
    core.Container.VolumeMounts c = copied ++ fixed
    ∧ length fixed = 3%nat
    ∧ core.VolumeMount.Name <$> fixed = corevol.Volume.Name <$> AgentVolumes agentName.
Proof.
  intros Hc. apply AgentContainer_Some in Hc as [_ ->].
  by exists (composedMounts pod config), fixedMounts.
Qed.

Lemma AgentVolumes_back_fixed_mounts_two :
  @AgentContainer sampleConstants twoPod twoSidecar = Some twoAgent
  ∧ ∃ copied fixed,
      core.Container.VolumeMounts twoAgent = copied ++ fixed
      ∧ length fixed = 3%nat
      ∧ core.VolumeMount.Name <$> fixed =
          corevol.Volume.Name <$>
            @AgentVolumes sampleConstants sampleVolumeConstants "web-deployment".
Proof.
  assert (Hc : @AgentContainer sampleConstants twoPod twoSidecar = Some twoAgent)
    by (vm_compute; reflexivity).
  split; [exact Hc|].
  exact (@AgentVolumes_back_fixed_mounts sampleConstants sampleVolumeConstants
           twoPod twoSidecar twoAgent "web-deployment" Hc).
Defined.

(** X2: the init container has no port and no variable and mounts one
    volume only; that mount is also a mount of every agent container, and
    its volume is one of those that [AgentVolumes] returns. *)
Theorem InitContainer_mount_shared `{Constants} `{VolumeConstants}
    (qualifiedAgentImage agentName : string)
    (pod : core.Pod.t) (config : Sidecar) (c : core.Container.t) :
  AgentContainer pod config = Some c →
  core.Container.Image (InitContainer qualifiedAgentImage).1 = qualifiedAgentImage
  ∧ core.Container.Ports (InitContainer qualifiedAgentImage).1 = []
  ∧ core.Container.Env (InitContainer qualifiedAgentImage).1 = []
  ∧ length (core.Container.VolumeMounts (InitContainer qualifiedAgentImage).1) = 1%nat
  ∧ ∀ m, m ∈ core.Container.VolumeMounts (InitContainer qualifiedAgentImage).1 →
         m ∈ core.Container.VolumeMounts c
         ∧ core.VolumeMount.Name m ∈ corevol.Volume.Name <$> AgentVolumes agentName.
Proof.
  intros Hc. apply AgentContainer_Some in Hc as [_ ->]. simpl.
  split_and!; [done..|]. intros m ->%list_elem_of_singleton. split.
  - apply elem_of_app. right. unfold fixedMounts.
    apply list_elem_of_further, list_elem_of_here.
  - simpl. apply list_elem_of_further, list_elem_of_here.
Qed.

Lemma InitContainer_mount_shared_two :
  @AgentContainer sampleConstants twoPod twoSidecar = Some twoAgent
  ∧ ∀ m, m ∈ core.Container.VolumeMounts
               (@InitContainer sampleConstants sampleVolumeConstants "agent:2").1 →
         m ∈ core.Container.VolumeMounts twoAgent
         ∧ core.VolumeMount.Name m ∈
             corevol.Volume.Name <$>
               @AgentVolumes sampleConstants sampleVolumeConstants "web-deployment".
Proof.
  assert (Hc : @AgentContainer sampleConstants twoPod twoSidecar = Some twoAgent)
    by (vm_compute; reflexivity).
  split; [exact Hc|].
  exact (proj2 (proj2 (proj2 (proj2
           (@InitContainer_mount_shared sampleConstants sampleVolumeConstants
              "agent:2" "web-deployment" twoPod twoSidecar twoAgent Hc))))).
Defined.

Lemma AgentContainer_sources :
  @AgentContainer sampleConstants sourcesPod webSidecar = Some sourcesAgent.
Proof. vm_compute. reflexivity. Qed.

Lemma matched_sourcesPod :
  matched sourcesPod webSidecar =
  match core.Pod.Containers sourcesPod with
  | app :: _ => [(app, webPolicy)]
  | [] => []
  end.
Proof. vm_compute. reflexivity. Qed.

(** X3: the environment sources of the returned container are those of
    the matched containers, in the order of the matches, each with its
    prefix replaced by the agent-env prefix, the [EnvPrefix] of its policy
    and the original prefix, and with its references unchanged. *)
Theorem AgentContainer_env_from `{Constants}
    (pod : core.Pod.t) (config : Sidecar) (c : core.Container.t) :
  AgentContainer pod config = Some c →
  core.Container.EnvFrom c =
    matched pod config ≫=
      (λ p, (λ e, core.EnvFromSource.mk
                    (EnvPrefixApp +:+ EnvPrefix p.2 +:+ core.EnvFromSource.Prefix e)
                    (core.EnvFromSource.ConfigMapRef e) (core.EnvFromSource.SecretRef e))
            <$> core.Container.EnvFrom p.1).
Proof. intros Hc. by apply AgentContainer_Some in Hc as [_ ->]. Qed.

Lemma AgentContainer_env_from_sources :
  @AgentContainer sampleConstants sourcesPod webSidecar = Some sourcesAgent
  ∧ core.Container.EnvFrom sourcesAgent =
      [core.EnvFromSource.mk "_TEL_APP_WEB_CFG_"
         (Some (core.EnvSource.mk "web-config" None)) None].
Proof.
  assert (Hc : @AgentContainer sampleConstants sourcesPod webSidecar = Some sourcesAgent)
    by (vm_compute; reflexivity).
  split; [exact Hc|].
  rewrite (@AgentContainer_env_from sampleConstants sourcesPod webSidecar sourcesAgent Hc).
  vm_compute. reflexivity.
Defined.

(** X4: when neither of the prefixes [EnvPrefixApp] and [EnvPrefixAgent]
    is a prefix of the other and the name of the API-port variable does
    not start with [EnvPrefixApp], no variable copied from an application
    container has the name of a variable that [AgentContainer] adds
    itself. *)
Theorem app_env_never_shadows_agent_env `{Constants}
    (pod : core.Pod.t) (config : Sidecar) (c : core.Container.t) :
  AgentContainer pod config = Some c →
  strings.HasPrefix EnvPrefixAgent EnvPrefixApp = false →
  strings.HasPrefix EnvPrefixApp EnvPrefixAgent = false →
  strings.HasPrefix EnvAPIPort EnvPrefixApp = false →
  ∃ copied,
    core.Container.Env c =
      copied
      ++ (if 0 <? APIPort config
          then [core.EnvVar.mk EnvAPIPort (strconv.Itoa (APIPort config)) None]
          else [])
      ++ [fieldRefVar (EnvPrefixAgent +:+ "POD_IP") "status.podIP";
          fieldRefVar (EnvPrefixAgent +:+ "NAME") "metadata.name"]
    ∧ ∀ e, e ∈ copied →
           core.EnvVar.Name e ≠ EnvAPIPort
           ∧ core.EnvVar.Name e ≠ EnvPrefixAgent +:+ "POD_IP"
           ∧ core.EnvVar.Name e ≠ EnvPrefixAgent +:+ "NAME".
Proof.
  intros Hc Hagent Happ Hapi. apply AgentContainer_Some in Hc as [_ ->].
  exists (composedEnv pod config). split; [done|].
  intros e ([app cc] & (e0 & -> & _)%list_elem_of_fmap & _)%list_elem_of_bind. simpl.
  split_and!.
  - intros Heq. rewrite <- Heq, HasPrefix_app in Hapi. done.
  - intros [?|?]%HasPrefix_common; congruence.
  - intros [?|?]%HasPrefix_common; congruence.
Qed.

Lemma app_env_never_shadows_agent_env_two :
  @AgentContainer sampleConstants twoPod twoSidecar = Some twoAgent
  ∧ ∃ copied,
      core.Container.Env twoAgent =
        copied
        ++ [core.EnvVar.mk "TELEPRESENCE_API_PORT" "8081" None]
        ++ [fieldRefVar "_TEL_AGENT_POD_IP" "status.podIP";
            fieldRefVar "_TEL_AGENT_NAME" "metadata.name"]
      ∧ ∀ e, e ∈ copied →
             core.EnvVar.Name e ≠ "TELEPRESENCE_API_PORT"
             ∧ core.EnvVar.Name e ≠ "_TEL_AGENT_POD_IP"
             ∧ core.EnvVar.Name e ≠ "_TEL_AGENT_NAME".
Proof.
  assert (Hc : @AgentContainer sampleConstants twoPod twoSidecar = Some twoAgent)
    by (vm_compute; reflexivity).
  split; [exact Hc|].
  exact (@app_env_never_shadows_agent_env sampleConstants twoPod twoSidecar twoAgent
           Hc eq_refl eq_refl eq_refl).
Defined.

(** X5: every mount of the returned container is one of the three mounts
    that [AgentContainer] adds itself, or comes from a mount of a matched
    container whose name is not ignored: it is that mount unchanged when
    its path is under the reserved prefix, and otherwise its copy with a
    path that starts with the mount point of the policy and a slash. *)
Theorem AgentContainer_mount_origin `{Constants}
    (pod : core.Pod.t) (config : Sidecar) (c : core.Container.t)
    (x : core.VolumeMount.t) :
  AgentContainer pod config = Some c →
  x ∈ core.Container.VolumeMounts c →
  x ∈ [plainMount AnnotationVolumeName AnnotationMountPoint;
       plainMount ConfigVolumeName ConfigMountPoint;
       plainMount ExportsVolumeName ExportsMountPoint]
  ∨ ∃ app cc m,
      (app, cc) ∈ matched pod config
      ∧ m ∈ core.Container.VolumeMounts app
      ∧ (core.VolumeMount.Name m ∉ ignoredOf pod)
      ∧ (if isVrs (core.VolumeMount.MountPath m)
         then x = m
         else x = setMountPath m
                    (MountPoint cc +:+ "/" +:+
                     strings.TrimPrefix (core.VolumeMount.MountPath m) "/")
              ∧ strings.HasPrefix (core.VolumeMount.MountPath x)
                  (MountPoint cc +:+ "/") = true).
Proof.
  intros Hc Hx. apply AgentContainer_Some in Hc as [_ ->]. simpl in Hx.
  apply elem_of_app in Hx as [Hx|Hx]; [|by left]. right.
  apply composeMounts_origin in Hx as [?%elem_of_nil|(m & cc & Hwork & Hnot & Hcase)];
    [done|].
  apply mountWork_elem in Hwork as (app & Hmatched & Hm).
  exists app, cc, m. split_and!; [done..|].
  destruct (isVrs (core.VolumeMount.MountPath m)); [done|]. subst x. split.
  - unfold relocated, setMountPath. by rewrite TrimPrefix_one_slash.
  - apply HasPrefix_app_app.
Qed.

Lemma AgentContainer_mount_origin_two :
  @AgentContainer sampleConstants twoPod twoSidecar = Some twoAgent
  ∧ ∃ app cc m,
      (app, cc) ∈ matched twoPod twoSidecar
      ∧ m ∈ core.Container.VolumeMounts app
      ∧ (core.VolumeMount.Name m ∉ ignoredOf twoPod)
      ∧ (if isVrs (core.VolumeMount.MountPath m)
         then core.VolumeMount.mk "data" false "/app/data" "sub" None EmptyString = m
         else core.VolumeMount.mk "data" false "/app/data" "sub" None EmptyString
              = setMountPath m
                  (MountPoint cc +:+ "/" +:+
                   strings.TrimPrefix (core.VolumeMount.MountPath m) "/")
              ∧ strings.HasPrefix "/app/data" (MountPoint cc +:+ "/") = true).
Proof.
  assert (Hc : @AgentContainer sampleConstants twoPod twoSidecar = Some twoAgent)
    by (vm_compute; reflexivity).
  split; [exact Hc|].
  destruct (@AgentContainer_mount_origin sampleConstants twoPod twoSidecar twoAgent
              (core.VolumeMount.mk "data" false "/app/data" "sub" None EmptyString) Hc)
    as [Hfixed|Horigin].
  - apply list_elem_of_further, list_elem_of_here.
  - exfalso. simpl in Hfixed.
    repeat (apply elem_of_cons in Hfixed as [[=]|Hfixed]). by apply elem_of_nil in Hfixed.
  - exact Horigin.
Defined.

(** X6: when no mount of a matched container is under the reserved
    prefix, the mounts of the returned container are the relocated copies
    of all the mounts of the matched containers whose names are not
    ignored, in the order of the matches and of the containers' mounts,
    followed by the three mounts that [AgentContainer] adds: none is
    dropped, repeated or reordered. *)
Theorem AgentContainer_mounts_in_order `{Constants}
    (pod : core.Pod.t) (config : Sidecar) (c : core.Container.t) :
  AgentContainer pod config = Some c →
  (∀ app cc m, (app, cc) ∈ matched pod config → m ∈ core.Container.VolumeMounts app →
               isVrs (core.VolumeMount.MountPath m) = false) →
  core.Container.VolumeMounts c =
    (matched pod config ≫=
       (λ p, (λ m, setMountPath m
                     (MountPoint p.2 +:+ "/" +:+
                      strings.TrimPrefix (core.VolumeMount.MountPath m) "/"))
             <$> List.filter (λ m, bool_decide (core.VolumeMount.Name m ∉ ignoredOf pod))
                   (core.Container.VolumeMounts p.1)))
    ++ [plainMount AnnotationVolumeName AnnotationMountPoint;
        plainMount ConfigVolumeName ConfigMountPoint;
        plainMount ExportsVolumeName ExportsMountPoint].
Proof.
  intros Hc Hnone. apply AgentContainer_Some in Hc as [_ ->]. simpl. f_equal.
  unfold composedMounts. rewrite composeMounts_no_credentials; simpl.
  - unfold mountWork. generalize (matched pod config). intros l.
    induction l as [|[app cc] l IH]; csimpl; [done|].
    rewrite List.filter_app, fmap_app, IH. f_equal. apply relocated_not_ignored.
  - intros m cc (app & Hmatched & Hm)%mountWork_elem. by eapply Hnone.
Qed.

Lemma AgentContainer_mounts_in_order_sources :
  @AgentContainer sampleConstants sourcesPod webSidecar = Some sourcesAgent
  ∧ core.Container.VolumeMounts sourcesAgent =
      [core.VolumeMount.mk "data" false "/app/data" EmptyString None EmptyString;
       core.VolumeMount.mk "logs" true "/app/logs" EmptyString None EmptyString;
       plainMount "traffic-annotations" "/tel_pod_info";
       plainMount "traffic-config" "/etc/traffic-agent";
       plainMount "export-volume" "/tel_app_exports"].
Proof.
  assert (Hc : @AgentContainer sampleConstants sourcesPod webSidecar = Some sourcesAgent)
    by (vm_compute; reflexivity).
  split; [exact Hc|].
  rewrite (@AgentContainer_mounts_in_order sampleConstants sourcesPod webSidecar
             sourcesAgent Hc).
  - vm_compute. reflexivity.
  - intros app cc m Hmatched Hm. rewrite matched_sourcesPod in Hmatched. simpl in Hmatched.
    apply list_elem_of_singleton in Hmatched as [= -> ->]. simpl in Hm.
    repeat (apply elem_of_cons in Hm as [->|Hm]); try reflexivity.
    by apply elem_of_nil in Hm.
Defined.

(** X7: when the containers of a Pod have different names, the order in
    which the Pod lists them does not matter: two Pods with the same
    annotations and the same containers in any order give the same agent
    container. *)
Theorem AgentContainer_pod_order_irrelevant `{Constants}
    (pod1 pod2 : core.Pod.t) (config : Sidecar) :
  core.Pod.Annotations pod1 = core.Pod.Annotations pod2 →
  core.Pod.Containers pod1 ≡ₚ core.Pod.Containers pod2 →
  NoDup (core.Container.Name <$> core.Pod.Containers pod1) →
  AgentContainer pod1 config = AgentContainer pod2 config.
Proof.
  intros Hann Hperm Hnodup. apply AgentContainer_same_matches; [done|].
  unfold matched. apply bind_ext_in. intros cc _.
  by rewrite (firstNamed_Permutation _ _ _ Hnodup Hperm).
Qed.

Lemma AgentContainer_pod_order_irrelevant_two :
  @AgentContainer sampleConstants twoPod twoSidecar
  = @AgentContainer sampleConstants twoPodSwapped twoSidecar.
Proof.
  apply (@AgentContainer_pod_order_irrelevant sampleConstants twoPod twoPodSwapped
           twoSidecar).
  - reflexivity.
  - simpl. apply Permutation_swap.
  - simpl. apply NoDup_cons. split.
    + intros Hin%list_elem_of_singleton. discriminate.
    + apply NoDup_singleton.
Defined.

(** ** The ignore annotation *)

Lemma append_nil_r (s : string) : s +:+ EmptyString = s.
Proof.
  induction s as [|a s IH]; [done|].
  change (String a (s +:+ EmptyString) = String a s). by rewrite IH.
Qed.

Lemma rev_app_rev_app (s acc acc' : string) :
  String.rev_app (String.rev_app s acc) acc' = String.rev_app acc (s +:+ acc').
Proof.
  revert acc acc'. induction s as [|a s IH]; intros acc acc'; [done|].
  simpl. by rewrite IH.
Qed.

Lemma rev_rev_app (s : string) : String.rev (String.rev_app s EmptyString) = s.
Proof. unfold String.rev. rewrite rev_app_rev_app. exact (append_nil_r s). Qed.

Lemma splitByte_piece (sep : ascii) (cur piece rest : string) :
  sep ∉ list_ascii_of_string piece →
  strings.splitByte sep cur (piece +:+ rest) =
  strings.splitByte sep (String.rev_app piece cur) rest.
Proof.
  revert cur. induction piece as [|a piece IH]; intros cur Hfree; [done|].
  simpl in *. apply not_elem_of_cons in Hfree as [Hne Hfree].
  destruct (Ascii.eqb a sep) eqn:Ha.
  - apply Ascii.eqb_eq in Ha. congruence.
  - by apply IH.
Qed.

Lemma Split_concat (sep : ascii) (pieces : list string) :
  pieces ≠ [] →
  (∀ piece, piece ∈ pieces → sep ∉ list_ascii_of_string piece) →
  strings.Split (String.concat (String sep EmptyString) pieces) sep = pieces.
Proof.
  unfold strings.Split. induction pieces as [|piece pieces IH]; intros Hne Hfree; [done|].
  assert (Hpiece : sep ∉ list_ascii_of_string piece) by (apply Hfree; by left).
  destruct pieces as [|next pieces].
  - simpl. rewrite <- (append_nil_r piece) at 1.
    rewrite splitByte_piece by done. simpl. by rewrite rev_rev_app.
  - change (String.concat (String sep EmptyString) (piece :: next :: pieces))
      with (piece +:+ String sep (String.concat (String sep EmptyString) (next :: pieces))).
    rewrite splitByte_piece by done. simpl. rewrite Ascii.eqb_refl, rev_rev_app.
    f_equal. apply IH; [done|]. intros p Hp. apply Hfree. by right.
Qed.

(** X8: when the value of the annotation is a non-empty list of names
    without commas, joined by commas, the ignore-set holds exactly these
    names, each without its surrounding white space. *)
Theorem getIgnoredVolumeMounts_of_joined_names
    (annotations : gmap string string) (names : list string) :
  names ≠ [] →
  (∀ name, name ∈ names → ("," : ascii) ∉ list_ascii_of_string name) →
  annotations !! "telepresence.getambassador.io/inject-ignore-volume-mounts"
    = Some (String.concat "," names) →
  ∀ name, name ∈ getIgnoredVolumeMounts annotations ↔ name ∈ strings.TrimSpace <$> names.
Proof.
  intros Hne Hfree Hvalue name.
  rewrite getIgnoredVolumeMounts_elem, Hvalue. simpl.
  rewrite (Split_concat "," names Hne Hfree), list_elem_of_fmap.
  split; intros (entry & ? & ?); by exists entry.
Qed.

Lemma getIgnoredVolumeMounts_of_joined_names_sources :
  "cache" ∈ getIgnoredVolumeMounts (core.Pod.Annotations sourcesPod)
  ∧ "scratch" ∈ getIgnoredVolumeMounts (core.Pod.Annotations sourcesPod)
  ∧ ("data" ∈ getIgnoredVolumeMounts (core.Pod.Annotations sourcesPod) →
     "data" ∈ ["cache"; "scratch"]).
Proof.
  assert (Hset : ∀ name,
            name ∈ getIgnoredVolumeMounts (core.Pod.Annotations sourcesPod) ↔
            name ∈ ["cache"; "scratch"]).
  { apply (getIgnoredVolumeMounts_of_joined_names (core.Pod.Annotations sourcesPod)
             ["cache "; " scratch"]).
    - discriminate.
    - intros name Hname Hcomma.
      repeat (apply elem_of_cons in Hname as [->|Hname]);
        [..|by apply elem_of_nil in Hname];
        simpl in Hcomma;
        repeat (apply elem_of_cons in Hcomma as [[=]|Hcomma]);
        by apply elem_of_nil in Hcomma.
    - reflexivity. }
  split_and!.
  - apply Hset, list_elem_of_here.
  - apply Hset, list_elem_of_further, list_elem_of_here.
  - apply Hset.
Defined.

(** The case analysis of [trimLeft] and [trimRightRev] on a list of at
    least one byte: the tests, and the rest of the list as far as the
    tests need it. *)
Ltac trim_cases :=
  simpl;
  repeat match goal with
    | |- context [if ?test then _ else _] => destruct test eqn:?
    | |- context [match ?rest with [] => _ | _ :: _ => _ end] =>
        is_var rest; destruct rest
    end.

Ltac trim_rewrite :=
  simpl; repeat match goal with H : _ = false |- _ => rewrite H end.

Lemma trimLeft_suffix (s : list ascii) : ∃ p, s = p ++ strings.trimLeft s.
Proof.
  assert (Hn : ∀ n (s : list ascii), (length s ≤ n)%nat → ∃ p, s = p ++ strings.trimLeft s);
    [|by apply (Hn (length s))].
  clear s. intros n. induction n as [|n IH]; intros s Hlen.
  { destruct s; [by exists []|simpl in Hlen; lia]. }
  destruct s as [|a s]; [by exists []|]. trim_cases; try (by exists []).
  - destruct (IH s) as [p Hp]; [simpl in Hlen; lia|]. exists (a :: p). simpl. by f_equal.
  - destruct (IH s) as [p Hp]; [simpl in Hlen; lia|]. exists (a :: a0 :: p).
    simpl. by do 2 f_equal.
  - destruct (IH s) as [p Hp]; [simpl in Hlen; lia|]. exists (a :: a0 :: a1 :: p).
    simpl. by do 3 f_equal.
Qed.

Lemma trimRightRev_suffix (s : list ascii) : ∃ p, s = p ++ strings.trimRightRev s.
Proof.
  assert (Hn : ∀ n (s : list ascii),
            (length s ≤ n)%nat → ∃ p, s = p ++ strings.trimRightRev s);
    [|by apply (Hn (length s))].
  clear s. intros n. induction n as [|n IH]; intros s Hlen.
  { destruct s; [by exists []|simpl in Hlen; lia]. }
  destruct s as [|a s]; [by exists []|]. trim_cases; try (by exists []).
  - destruct (IH s) as [p Hp]; [simpl in Hlen; lia|]. exists (a :: p). simpl. by f_equal.
  - destruct (IH s) as [p Hp]; [simpl in Hlen; lia|]. exists (a :: a0 :: p).
    simpl. by do 2 f_equal.
  - destruct (IH s) as [p Hp]; [simpl in Hlen; lia|]. exists (a :: a0 :: a1 :: p).
    simpl. by do 3 f_equal.
Qed.

Lemma trimLeft_idempotent (s : list ascii) :
  strings.trimLeft (strings.trimLeft s) = strings.trimLeft s.
Proof.
  assert (Hn : ∀ n (s : list ascii), (length s ≤ n)%nat →
            strings.trimLeft (strings.trimLeft s) = strings.trimLeft s);
    [|by apply (Hn (length s))].
  clear s. intros n. induction n as [|n IH]; intros s Hlen.
  { destruct s; [done|simpl in Hlen; lia]. }
  destruct s as [|a s]; [done|]. trim_cases;
    try (apply IH; simpl in Hlen; lia); by trim_rewrite.
Qed.

Lemma trimRightRev_idempotent (s : list ascii) :
  strings.trimRightRev (strings.trimRightRev s) = strings.trimRightRev s.
Proof.
  assert (Hn : ∀ n (s : list ascii), (length s ≤ n)%nat →
            strings.trimRightRev (strings.trimRightRev s) = strings.trimRightRev s);
    [|by apply (Hn (length s))].
  clear s. intros n. induction n as [|n IH]; intros s Hlen.
  { destruct s; [done|simpl in Hlen; lia]. }
  destruct s as [|a s]; [done|]. trim_cases;
    try (apply IH; simpl in Hlen; lia); by trim_rewrite.
Qed.

Lemma trimLeft_shorter (s : list ascii) : (length (strings.trimLeft s) ≤ length s)%nat.
Proof.
  destruct (trimLeft_suffix s) as [p Hp]. rewrite Hp at 2. rewrite length_app. lia.
Qed.

(** A list that [trimLeft] leaves as it is keeps this property when bytes
    are removed at its end. *)
Lemma trimLeft_fixed_prefix (p q : list ascii) :
  strings.trimLeft (p ++ q) = p ++ q → strings.trimLeft p = p.
Proof.
  intros Hfixed.
  assert (Hshort : ∀ r : list ascii, (length r < length (p ++ q))%nat →
            strings.trimLeft r ≠ p ++ q).
  { intros r Hr Heq. pose proof (trimLeft_shorter r) as Hle. rewrite Heq in Hle. lia. }
  destruct p as [|a [|b [|c p]]]; [done|..]; simpl in Hfixed, Hshort |- *.
  - destruct (strings.asciiSpace a) eqn:Ha; [|done].
    exfalso. apply (Hshort q); [lia|done].
  - destruct (strings.asciiSpace a) eqn:Ha.
    { exfalso. apply (Hshort (b :: q)); [simpl; lia|done]. }
    destruct (strings.space2 a b) eqn:Hab; [|done].
    exfalso. apply (Hshort q); [lia|done].
  - destruct (strings.asciiSpace a) eqn:Ha.
    { exfalso. apply (Hshort (b :: c :: p ++ q)); [simpl; lia|done]. }
    destruct (strings.space2 a b) eqn:Hab.
    { exfalso. apply (Hshort (c :: p ++ q)); [simpl; lia|done]. }
    destruct (strings.space3 a b c) eqn:Habc; [|done].
    exfalso. apply (Hshort (p ++ q)); [lia|done].
Qed.

Lemma TrimSpace_idempotent (s : string) :
  strings.TrimSpace (strings.TrimSpace s) = strings.TrimSpace s.
Proof.
  unfold strings.TrimSpace. rewrite list_ascii_of_string_of_list_ascii.
  set (left := strings.trimLeft (list_ascii_of_string s)).
  destruct (trimRightRev_suffix (List.rev left)) as [p Hp].
  assert (Hleft : left = List.rev (strings.trimRightRev (List.rev left)) ++ List.rev p).
  { rewrite <- List.rev_app_distr, <- Hp. by rewrite List.rev_involutive. }
  assert (Hfixed : strings.trimLeft (List.rev (strings.trimRightRev (List.rev left)))
                   = List.rev (strings.trimRightRev (List.rev left))).
  { apply (trimLeft_fixed_prefix _ (List.rev p)). rewrite <- Hleft.
    apply trimLeft_idempotent. }
  by rewrite Hfixed, List.rev_involutive, trimRightRev_idempotent.
Qed.

(** X9: every name of the ignore-set is free of surrounding white space:
    trimming it again does not change it, so a mount whose name starts or
    ends with white space is never ignored. *)
Theorem ignored_names_are_trimmed
    (annotations : gmap string string) (name : string) :
  name ∈ getIgnoredVolumeMounts annotations → strings.TrimSpace name = name.
Proof.
  intros (entry & _ & ->)%getIgnoredVolumeMounts_elem. apply TrimSpace_idempotent.
Qed.

Lemma ignored_names_are_trimmed_sources : strings.TrimSpace "scratch" = "scratch".
Proof.
  apply (ignored_names_are_trimmed (core.Pod.Annotations sourcesPod) "scratch").
  apply getIgnoredVolumeMounts_elem. exists " scratch".
  split; [|reflexivity]. simpl. apply list_elem_of_further, list_elem_of_here.
Defined.

(** ** The values and the decisions of the installation *)

Lemma rev_app_append (s acc rest : string) :
  String.rev_app s acc +:+ rest = String.rev_app s (acc +:+ rest).
Proof. revert acc. induction s as [|a s IH]; intros acc; [done|]. simpl. by rewrite IH. Qed.

Lemma rev_app_bytes (s acc : string) (x : ascii) :
  x ∈ list_ascii_of_string (String.rev_app s acc) ↔
  x ∈ list_ascii_of_string s ∨ x ∈ list_ascii_of_string acc.
Proof.
  revert acc. induction s as [|a s IH]; intros acc; simpl.
  - split; [by right|]. by intros [?%elem_of_nil|?].
  - rewrite IH. simpl. rewrite !elem_of_cons. tauto.
Qed.

Lemma splitByte_nonempty (sep : ascii) (cur s : string) :
  strings.splitByte sep cur s ≠ [].
Proof.
  revert cur. induction s as [|a s IH]; intros cur; simpl; [done|].
  destruct (Ascii.eqb a sep); [done|apply IH].
Qed.

Lemma splitByte_join (sep : ascii) (cur s : string) :
  String.concat (String sep EmptyString) (strings.splitByte sep cur s)
  = String.rev cur +:+ s.
Proof.
  revert cur. induction s as [|a s IH]; intros cur; simpl.
  - by rewrite append_nil_r.
  - destruct (Ascii.eqb a sep) eqn:Ha.
    + apply Ascii.eqb_eq in Ha as ->.
      pose proof (IH EmptyString) as Hrest.
      destruct (strings.splitByte sep EmptyString s) as [|piece pieces] eqn:Hsplit.
      { by apply splitByte_nonempty in Hsplit. }
      change (String.concat (String sep EmptyString) (String.rev cur :: piece :: pieces))
        with (String.rev cur +:+
              String sep (String.concat (String sep EmptyString) (piece :: pieces))).
      by rewrite Hrest.
    + rewrite IH. unfold String.rev. simpl. by rewrite !rev_app_append.
Qed.

Lemma splitByte_pieces_free (sep : ascii) (cur s piece : string) :
  sep ∉ list_ascii_of_string cur →
  piece ∈ strings.splitByte sep cur s →
  sep ∉ list_ascii_of_string piece.
Proof.
  revert cur. induction s as [|a s IH]; intros cur Hcur; simpl.
  - intros ->%list_elem_of_singleton. unfold String.rev. rewrite rev_app_bytes.
    intros [?|?%elem_of_nil]; done.
  - destruct (Ascii.eqb a sep) eqn:Ha.
    + intros [->|Hin]%elem_of_cons.
      * unfold String.rev. rewrite rev_app_bytes. intros [?|?%elem_of_nil]; done.
      * apply (IH EmptyString); [|done]. simpl. apply not_elem_of_nil.
    + apply IH. simpl. apply not_elem_of_cons. split; [|done].
      intros ->. by rewrite Ascii.eqb_refl in Ha.
Qed.

Lemma Split_join (s : string) (sep : ascii) :
  String.concat (String sep EmptyString) (strings.Split s sep) = s.
Proof. unfold strings.Split. by rewrite splitByte_join. Qed.

Lemma Split_pieces_free (s piece : string) (sep : ascii) :
  piece ∈ strings.Split s sep → sep ∉ list_ascii_of_string piece.
Proof. apply splitByte_pieces_free. simpl. apply not_elem_of_nil. Qed.

(** X10: for a non-empty [WebhookAgentImage] the values have an agent
    image whose name and tag are the text before the first colon and the
    text between the first and the second colon: an image without colon
    is the name, with an empty tag; with one colon the name and the tag
    give the image back; what follows a second colon is dropped. *)
Theorem getValues_agent_image
    (clientConfig : helm.Config) (version clusterID : string) :
  helm.WebhookAgentImage (helm.ConfigImages clientConfig) ≠ EmptyString →
  ∃ name tag,
    helm.getValues clientConfig version clusterID !! "agentInjector" =
      Some (helm.VMap
              {[ "agentImage" :=
                   helm.VMap
                     {[ "registry" :=
                          helm.VString
                            (helm.WebhookRegistry (helm.ConfigImages clientConfig));
                        "name" := helm.VString name;
                        "tag" := helm.VString tag ]} ]})
    ∧ ((":" : ascii) ∉ list_ascii_of_string name)
    ∧ ((":" : ascii) ∉ list_ascii_of_string tag)
    ∧ ((name = helm.WebhookAgentImage (helm.ConfigImages clientConfig)
        ∧ tag = EmptyString)
       ∨ ∃ rest,
           helm.WebhookAgentImage (helm.ConfigImages clientConfig)
           = String.concat ":" (name :: tag :: rest)).
Proof.
  intros Himage. unfold helm.getValues. rewrite decide_True by done.
  pose proof (Split_join (helm.WebhookAgentImage (helm.ConfigImages clientConfig)) ":")
    as Hjoin.
  pose proof (λ piece,
              Split_pieces_free
                (helm.WebhookAgentImage (helm.ConfigImages clientConfig)) piece ":")
    as Hfree.
  destruct (strings.Split (helm.WebhookAgentImage (helm.ConfigImages clientConfig)) ":")
    as [|part0 [|part1 rest]] eqn:Hsplit.
  - by apply splitByte_nonempty in Hsplit.
  - exists (helm.WebhookAgentImage (helm.ConfigImages clientConfig)), EmptyString.
    split_and!.
    + apply lookup_insert_eq.
    + rewrite <- Hjoin. apply Hfree. by left.
    + simpl. apply not_elem_of_nil.
    + by left.
  - exists part0, part1. split_and!.
    + apply lookup_insert_eq.
    + apply Hfree. by left.
    + apply Hfree. by right; left.
    + right. by exists rest.
Qed.

Lemma getValues_agent_image_registry_port :
  ∃ name tag,
    helm.getValues registryPortConfig "v2.4.9" "cluster-1" !! "agentInjector" =
      Some (helm.VMap
              {[ "agentImage" :=
                   helm.VMap {[ "registry" := helm.VString "reg";
                                "name" := helm.VString name;
                                "tag" := helm.VString tag ]} ]})
    ∧ ((":" : ascii) ∉ list_ascii_of_string name)
    ∧ ((":" : ascii) ∉ list_ascii_of_string tag)
    ∧ ((name = "localhost:5000/tel2:2.4.9" ∧ tag = EmptyString)
       ∨ ∃ rest, "localhost:5000/tel2:2.4.9" = String.concat ":" (name :: tag :: rest)).
Proof.
  apply (getValues_agent_image registryPortConfig "v2.4.9" "cluster-1"). discriminate.
Defined.

Example getValues_registry_port :
  helm.getValues registryPortConfig "v2.4.9" "cluster-1" =
  {[ "clusterID" := helm.VString "cluster-1";
     "image" := helm.VMap {[ "registry" := helm.VString "docker.io/datawire";
                             "tag" := helm.VString "2.4.9" ]};
     "createdBy" := helm.VString "telepresence-cli";
     "agentInjector" :=
       helm.VMap
         {[ "agentImage" :=
              helm.VMap {[ "registry" := helm.VString "reg";
                           "name" := helm.VString "localhost";
                           "tag" := helm.VString "5000/tel2" ]} ]} ]}.
Proof. vm_compute. reflexivity. Qed.

(** Membership in an explicit list of events, case by case. *)
Ltac event_cases H :=
  simpl in H;
  repeat (apply elem_of_cons in H as [H|H]; [try discriminate H|]);
  try (by apply elem_of_nil in H).

Ltac cluster_cases k namespace :=
  unfold helm.EnsureTrafficManager, helm.DeleteTrafficManager,
    helm.installNew, helm.upgradeExisting;
  destruct (helm.getHelmConfig k namespace) as [initErr|] eqn:Hinit;
  [|try destruct (helm.loadChart k) as [chrt|chartErr] eqn:Hchart;
    [destruct (helm.getHelmRelease k namespace) as [[existing|]|lookupErr] eqn:Hlookup;
     [destruct (helm.shouldManageRelease k existing) eqn:Hmanage;
      try destruct (helm.shouldUpgradeRelease k existing) eqn:Hupgrade|..]|..]];
  simpl.

(** X11: [EnsureTrafficManager] runs at most one helm action and never an
    uninstall; it installs only after a lookup that found no release, and
    then the release [traffic-manager] in the given namespace; it
    upgrades only a release that the lookup found and that both
    [shouldManageRelease] and [shouldUpgradeRelease] accept. *)
Theorem EnsureTrafficManager_touches_only_own_release {Release Chart : Type}
    (k : @helm.Cluster Release Chart) (namespace clusterID : string) :
  (length (helm.runs (helm.EnsureTrafficManager k namespace clusterID).1) ≤ 1)%nat
  ∧ (∀ uninstall name,
       helm.RunUninstall uninstall name
         ∉ (helm.EnsureTrafficManager k namespace clusterID).1)
  ∧ (∀ install values,
       helm.RunInstall install values
         ∈ (helm.EnsureTrafficManager k namespace clusterID).1 →
       helm.getHelmRelease k namespace = helm.Ok None
       ∧ helm.InstallReleaseName install = "traffic-manager"
       ∧ helm.InstallNamespace install = namespace
       ∧ values = helm.getValues (helm.clientConfig k) (helm.clientVersion k) clusterID)
  ∧ (∀ upgrade name values,
       helm.RunUpgrade upgrade name values
         ∈ (helm.EnsureTrafficManager k namespace clusterID).1 →
       name = "traffic-manager"
       ∧ helm.UpgradeNamespace upgrade = namespace
       ∧ values = helm.getValues (helm.clientConfig k) (helm.clientVersion k) clusterID
       ∧ ∃ existing,
           helm.getHelmRelease k namespace = helm.Ok (Some existing)
           ∧ helm.shouldManageRelease k existing = true
           ∧ helm.shouldUpgradeRelease k existing = true).
Proof.
  split_and!.
  - cluster_cases k namespace; lia.
  - intros uninstall name Hin. revert Hin. cluster_cases k namespace;
      intros Hin; event_cases Hin.
  - intros install values Hin. revert Hin. cluster_cases k namespace;
      intros Hin; event_cases Hin.
    by injection Hin as -> ->.
  - intros upgrade name values Hin. revert Hin. cluster_cases k namespace;
      intros Hin; event_cases Hin.
    injection Hin as -> -> ->. split_and!; [done..|]. by exists existing.
Qed.

(** X12: [EnsureTrafficManager] returns an error in three cases only: the
    helm configuration cannot be initialised or the chart cannot be
    loaded, and the error wraps the cause, or the one helm action it runs
    fails, and the error is that of the action.  A lookup of the release
    that fails is logged and not returned: the result is nil and no helm
    action is run. *)
Theorem EnsureTrafficManager_errors {Release Chart : Type}
    (k : @helm.Cluster Release Chart) (namespace clusterID : string) :
  (∀ err,
     (helm.EnsureTrafficManager k namespace clusterID).2 = Some err →
     (∃ cause, helm.getHelmConfig k namespace = Some cause
               ∧ err = helm.Wrap "failed to initialize helm config: " cause)
     ∨ (∃ cause, helm.loadChart k = helm.Fail cause
                 ∧ err = helm.Wrap "unable to load built-in helm chart: " cause)
     ∨ (∃ chrt install values,
          helm.loadChart k = helm.Ok chrt
          ∧ helm.RunInstall install values
              ∈ (helm.EnsureTrafficManager k namespace clusterID).1
          ∧ helm.installRun k install chrt values = Some err)
     ∨ (∃ chrt upgrade name values,
          helm.loadChart k = helm.Ok chrt
          ∧ helm.RunUpgrade upgrade name values
              ∈ (helm.EnsureTrafficManager k namespace clusterID).1
          ∧ helm.upgradeRun k upgrade name chrt values = Some err))
  ∧ (∀ chrt cause,
       helm.getHelmConfig k namespace = None →
       helm.loadChart k = helm.Ok chrt →
       helm.getHelmRelease k namespace = helm.Fail cause →
       (helm.EnsureTrafficManager k namespace clusterID).2 = None
       ∧ helm.runs (helm.EnsureTrafficManager k namespace clusterID).1 = []).
Proof.
  split.
  - intros err. cluster_cases k namespace; intros Herr; try discriminate Herr.
    + injection Herr as <-. left. by exists initErr.
    + right; right; right. eexists chrt, _, _, _.
      split_and!; [done| |exact Herr]. apply list_elem_of_further, list_elem_of_here.
    + right; right; left. eexists chrt, _, _.
      split_and!; [done| |exact Herr]. apply list_elem_of_further, list_elem_of_here.
    + injection Herr as <-. right; left. by exists chartErr.
  - intros chrt cause Hinit Hchart Hlookup.
    unfold helm.EnsureTrafficManager. by rewrite Hinit, Hchart, Hlookup.
Qed.

(** X13: [DeleteTrafficManager] never installs or upgrades; it uninstalls
    exactly when the lookup found a release that [shouldManageRelease]
    accepts, and then the release [traffic-manager]: whatever the cluster
    in which [EnsureTrafficManager] installed a release, and the
    namespace, the name that [DeleteTrafficManager] uninstalls is the
    name of that installation; it returns an error only when the helm
    configuration cannot be initialised, wrapped, or when the uninstall
    fails. *)
Theorem DeleteTrafficManager_uninstalls_only_own_release {Release Chart : Type}
    (k : @helm.Cluster Release Chart) (namespace : string) :
  (∀ e, e ∈ helm.runs (helm.DeleteTrafficManager k namespace).1 →
        e = helm.RunUninstall (helm.mkUninstall (2 * helm.Minute)) "traffic-manager")
  ∧ (helm.runs (helm.DeleteTrafficManager k namespace).1 ≠ [] ↔
     helm.getHelmConfig k namespace = None
     ∧ ∃ existing, helm.getHelmRelease k namespace = helm.Ok (Some existing)
                   ∧ helm.shouldManageRelease k existing = true)
  ∧ (∀ (before : @helm.Cluster Release Chart) installNamespace clusterID install values,
       helm.RunInstall install values
         ∈ (helm.EnsureTrafficManager before installNamespace clusterID).1 →
       ∀ uninstall name,
         helm.RunUninstall uninstall name ∈ (helm.DeleteTrafficManager k namespace).1 →
         name = helm.InstallReleaseName install)
  ∧ (∀ err,
       (helm.DeleteTrafficManager k namespace).2 = Some err →
       (∃ cause, helm.getHelmConfig k namespace = Some cause
                 ∧ err = helm.Wrap "failed to initialize helm config: " cause)
       ∨ helm.uninstallRun k (helm.mkUninstall (2 * helm.Minute)) "traffic-manager"
         = Some err).
Proof.
  split_and!.
  - intros e. unfold helm.DeleteTrafficManager.
    destruct (helm.getHelmConfig k namespace); [by intros ?%elem_of_nil|].
    destruct (helm.getHelmRelease k namespace) as [[existing|]|lookupErr];
      [destruct (helm.shouldManageRelease k existing)|..]; simpl;
      intros Hin; event_cases Hin. done.
  - unfold helm.DeleteTrafficManager.
    destruct (helm.getHelmConfig k namespace); [split; [done|by intros [? _]]|].
    destruct (helm.getHelmRelease k namespace) as [[existing|]|lookupErr];
      [destruct (helm.shouldManageRelease k existing) eqn:Hmanage|..]; simpl.
    + split; [|done]. intros _. split; [done|]. by exists existing.
    + split; [done|]. intros [_ (r & [= <-] & Hr)]. congruence.
    + split; [done|]. by intros [_ (r & ? & _)].
    + split; [done|]. by intros [_ (r & ? & _)].
  - intros before installNamespace clusterID install values Hinstall uninstall name
      Huninstall.
    assert (Hinstalled : helm.InstallReleaseName install = "traffic-manager").
    { revert Hinstall. cluster_cases before installNamespace;
        intros Hinstall; event_cases Hinstall. by injection Hinstall as -> _. }
    rewrite Hinstalled. revert Huninstall. unfold helm.DeleteTrafficManager.
    destruct (helm.getHelmConfig k namespace); [by intros ?%elem_of_nil|].
    destruct (helm.getHelmRelease k namespace) as [[existing|]|lookupErr];
      [destruct (helm.shouldManageRelease k existing)|..]; simpl;
      intros Hin; event_cases Hin. by injection Hin as _ ->.
  - intros err. unfold helm.DeleteTrafficManager.
    destruct (helm.getHelmConfig k namespace) as [initErr|] eqn:Hinit.
    { intros [= <-]. left. by exists initErr. }
    destruct (helm.getHelmRelease k namespace) as [[existing|]|lookupErr];
      [destruct (helm.shouldManageRelease k existing)|..]; simpl;
      intros Herr; try discriminate Herr. by right.
Qed.

Lemma DeleteTrafficManager_uninstalls_only_own_release_owned :
  helm.RunInstall (helm.mkInstall "traffic-manager" "ambassador" 120000000000 true true)
    (helm.getValues registryPortConfig "v2.4.9" "cluster-1")
    ∈ (helm.EnsureTrafficManager emptyCluster "ambassador" "cluster-1").1
  ∧ helm.RunUninstall (helm.mkUninstall 120000000000) "traffic-manager"
      ∈ (helm.DeleteTrafficManager ownedCluster "ambassador").1
  ∧ helm.runs (helm.DeleteTrafficManager ownedCluster "ambassador").1 ≠ []
  ∧ "traffic-manager" =
      helm.InstallReleaseName
        (helm.mkInstall "traffic-manager" "ambassador" 120000000000 true true).
Proof.
  assert (Hinstall :
            helm.RunInstall
              (helm.mkInstall "traffic-manager" "ambassador" 120000000000 true true)
              (helm.getValues registryPortConfig "v2.4.9" "cluster-1")
              ∈ (helm.EnsureTrafficManager emptyCluster "ambassador" "cluster-1").1).
  { apply list_elem_of_further, list_elem_of_here. }
  assert (Huninstall :
            helm.RunUninstall (helm.mkUninstall 120000000000) "traffic-manager"
              ∈ (helm.DeleteTrafficManager ownedCluster "ambassador").1).
  { apply list_elem_of_further, list_elem_of_here. }
  destruct (DeleteTrafficManager_uninstalls_only_own_release ownedCluster "ambassador")
    as (_ & Hruns & Hname & _).
  split_and!; [exact Hinstall|exact Huninstall| |].
  - apply Hruns. split; [reflexivity|]. by exists "traffic-manager-1".
  - exact (Hname emptyCluster "ambassador" "cluster-1" _ _ Hinstall _ _ Huninstall).
Defined.

Example EnsureTrafficManager_installs_on_empty_cluster :
  helm.EnsureTrafficManager emptyCluster "ambassador" "cluster-1" =
  ([helm.LogInfo "No existing Traffic Manager found, installing...";
    helm.RunInstall (helm.mkInstall "traffic-manager" "ambassador" 120000000000 true true)
      (helm.getValues registryPortConfig "v2.4.9" "cluster-1")],
   None).
Proof. vm_compute. reflexivity. Qed.

(** ** What the agent container does not depend on *)

Lemma firstNamed_cons (app : core.Container.t) (cns : list core.Container.t)
    (name : string) :
  firstNamed (app :: cns) name =
  if decide (core.Container.Name app = name) then Some app else firstNamed cns name.
Proof.
  unfold firstNamed. simpl. destruct (decide (core.Container.Name app = name)); [done|].
  by destruct (list_find _ cns) as [[i a]|].
Qed.

Lemma firstNamed_filter (names : list string) (cns : list core.Container.t)
    (name : string) :
  name ∈ names →
  firstNamed (List.filter (λ app, bool_decide (core.Container.Name app ∈ names)) cns) name
  = firstNamed cns name.
Proof.
  intros Hname. induction cns as [|app cns IH]; [done|]. simpl.
  rewrite firstNamed_cons. case_bool_decide as Hin.
  - rewrite firstNamed_cons. by destruct (decide (core.Container.Name app = name)).
  - destruct (decide (core.Container.Name app = name)) as [Heq|Hne]; [|done].
    by rewrite Heq in Hin.
Qed.

(** X14: the containers of the Pod that no policy names have no
    influence: the agent container is the one of the Pod without these
    containers. *)
Theorem AgentContainer_ignores_unnamed_containers `{Constants}
    (pod : core.Pod.t) (config : Sidecar) :
  AgentContainer pod config =
  AgentContainer
    (core.Pod.mk (core.Pod.Annotations pod)
       (List.filter
          (λ app, bool_decide (core.Container.Name app ∈ Name <$> Containers config))
          (core.Pod.Containers pod)))
    config.
Proof.
  apply AgentContainer_same_matches; [done|].
  unfold matched. apply bind_ext_in. intros cc Hcc. simpl.
  rewrite firstNamed_filter; [done|]. by apply list_elem_of_fmap_2.
Qed.

Example AgentContainer_ignores_third_container :
  @AgentContainer sampleConstants
    (core.Pod.mk ∅ (core.Pod.Containers otherPod ++ core.Pod.Containers twoPod)) twoSidecar
  = Some twoAgent.
Proof. vm_compute. reflexivity. Qed.

(** X15: the annotations of the Pod have no influence on the returned
    container but on its volume mounts: two Pods with the same containers
    give agent containers that are equal up to their volume mounts. *)
Theorem AgentContainer_annotations_only_affect_mounts `{Constants}
    (pod1 pod2 : core.Pod.t) (config : Sidecar) :
  core.Pod.Containers pod1 = core.Pod.Containers pod2 →
  (λ c, core.Container.mk (core.Container.Name c) (core.Container.Image c)
          (core.Container.Args c) (core.Container.Ports c) (core.Container.Env c)
          (core.Container.EnvFrom c) [] (core.Container.ReadinessProbe c))
    <$> AgentContainer pod1 config
  = (λ c, core.Container.mk (core.Container.Name c) (core.Container.Image c)
            (core.Container.Args c) (core.Container.Ports c) (core.Container.Env c)
            (core.Container.EnvFrom c) [] (core.Container.ReadinessProbe c))
    <$> AgentContainer pod2 config.
Proof.
  intros Hsame. rewrite !AgentContainer_eq.
  assert (Hmatched : matched pod1 config = matched pod2 config).
  { unfold matched. by rewrite Hsame. }
  unfold composedEnv, composedEnvFrom. rewrite Hmatched.
  by destruct (interceptPorts config).
Qed.

Lemma AgentContainer_annotations_only_affect_mounts_two :
  (λ c, core.Container.mk (core.Container.Name c) (core.Container.Image c)
          (core.Container.Args c) (core.Container.Ports c) (core.Container.Env c)
          (core.Container.EnvFrom c) [] (core.Container.ReadinessProbe c))
    <$> @AgentContainer sampleConstants twoPod twoSidecar
  = (λ c, core.Container.mk (core.Container.Name c) (core.Container.Image c)
            (core.Container.Args c) (core.Container.Ports c) (core.Container.Env c)
            (core.Container.EnvFrom c) [] (core.Container.ReadinessProbe c))
    <$> @AgentContainer sampleConstants ignoringPod twoSidecar.
Proof.
  apply (@AgentContainer_annotations_only_affect_mounts sampleConstants
           twoPod ignoringPod twoSidecar).
  reflexivity.
Defined.

(** ** The list of workloads *)

Lemma length_append (a b : string) :
  String.length (a +:+ b) = (String.length a + String.length b)%nat.
Proof.
  induction a as [|c a IH]; [done|].
  change (S (String.length (a +:+ b)) = S (String.length a + String.length b)).
  by rewrite IH.
Qed.

Section PrintList.
Context {InterceptInfo AgentInfoT : Type}.
Context (specName specNamespace : InterceptInfo → string).
Context (describeIntercept : InterceptInfo → option string → bool → string).

Local Abbreviation printLoop := (@cli.printLoop InterceptInfo AgentInfoT specName describeIntercept).
Local Abbreviation nameLenLoop := (@cli.nameLenLoop InterceptInfo AgentInfoT specName).
Local Abbreviation printList :=
  (@cli.printList InterceptInfo AgentInfoT specName specNamespace describeIntercept).

Lemma printLoop_after_nameLenLoop s includeNs nameLen0 nameLen width
    (workloads : list (@cli.WorkloadInfo InterceptInfo AgentInfoT)) :
  nameLenLoop includeNs nameLen0 workloads = Some nameLen →
  (printLoop s includeNs width workloads).2 = cli.Returned
  ∧ length (printLoop s includeNs width workloads).1 = length workloads
  ∧ (nameLen0 ≤ nameLen)%nat
  ∧ (∀ o w n, o ∈ (printLoop s includeNs width workloads).1 →
              cli.lineLabel o = Some (w, n) →
              w = width ∧ (String.length n ≤ nameLen)%nat)
  ∧ (nameLen = nameLen0
     ∨ ∃ o n, o ∈ (printLoop s includeNs width workloads).1
              ∧ cli.lineLabel o = Some (width, n)
              ∧ String.length n = nameLen).
Proof.
  revert nameLen0. induction workloads as [|dep rest IH]; intros nameLen0; simpl.
  { intros [= <-]. split_and!; [done..| |by left]. by intros o w n ?%elem_of_nil. }
  destruct (decide (cli.Name dep = EmptyString)) as [Hname|Hname].
  - destruct (cli.firstIntercept dep) as [ii|]; simpl; [|done].
    intros Hloop. apply IH in Hloop as (Hret & Hlen & Hle & Hlines & Hmax).
    destruct (printLoop s includeNs width rest) as [out outcome]. simpl in *.
    assert (Hlabel : String.length
                       (if includeNs then specName ii +:+ "." +:+ cli.Namespace dep
                        else specName ii)
                     = if includeNs
                       then (String.length (specName ii)
                             + (String.length (cli.Namespace dep) + 1))%nat
                       else String.length (specName ii)).
    { destruct includeNs; [|done]. rewrite !length_append. simpl. lia. }
    split_and!; [done|by rewrite Hlen| | |].
    + destruct (_ <? _)%nat eqn:Hlt; [apply Nat.ltb_lt in Hlt|]; lia.
    + intros o w n [->|Hin]%elem_of_cons; [|by eapply Hlines].
      intros [= <- <-]. split; [done|]. rewrite Hlabel.
      destruct (_ <? _)%nat eqn:Hlt; [lia|apply Nat.ltb_ge in Hlt; lia].
    + destruct Hmax as [->|(o & n & Hin & Ho & Hn)].
      * destruct (_ <? _)%nat eqn:Hlt; [|by left]. right.
        eexists _, _. split_and!; [by left|done|]. by rewrite Hlabel.
      * right. exists o, n. split_and!; [by right|done..].
  - intros Hloop. apply IH in Hloop as (Hret & Hlen & Hle & Hlines & Hmax).
    destruct (printLoop s includeNs width rest) as [out outcome]. simpl in *.
    assert (Hlabel : String.length
                       (if includeNs then cli.Name dep +:+ "." +:+ cli.Namespace dep
                        else cli.Name dep)
                     = if includeNs
                       then (String.length (cli.Name dep)
                             + (String.length (cli.Namespace dep) + 1))%nat
                       else String.length (cli.Name dep)).
    { destruct includeNs; [|done]. rewrite !length_append. simpl. lia. }
    split_and!; [done|by rewrite Hlen| | |].
    + destruct (_ <? _)%nat eqn:Hlt; [apply Nat.ltb_lt in Hlt|]; lia.
    + intros o w n [->|Hin]%elem_of_cons; [|by eapply Hlines].
      intros [= <- <-]. split; [done|]. rewrite Hlabel.
      destruct (_ <? _)%nat eqn:Hlt; [lia|apply Nat.ltb_ge in Hlt; lia].
    + destruct Hmax as [->|(o & n & Hin & Ho & Hn)].
      * destruct (_ <? _)%nat eqn:Hlt; [|by left]. right.
        eexists _, _. split_and!; [by left|done|]. by rewrite Hlabel.
      * right. exists o, n. split_and!; [by right|done..].
Qed.

End PrintList.

Lemma printLoop_calls {InterceptInfo AgentInfoT : Type}
    (specName : InterceptInfo → string)
    (describeIntercept : InterceptInfo → option string → bool → string)
    (s : cli.listInfo) (includeNs : bool) (nameLen0 nameLen width : nat)
    (workloads : list (@cli.WorkloadInfo InterceptInfo AgentInfoT)) :
  cli.nameLenLoop specName includeNs nameLen0 workloads = Some nameLen →
  Forall2
    (λ o workload,
       if decide (cli.Name workload = EmptyString)
       then ∃ ii,
              cli.firstIntercept workload = Some ii
              ∧ o = cli.PrintLocalOnly width
                      (if includeNs
                       then specName ii +:+ "." +:+ cli.Namespace workload
                       else specName ii)
       else o = cli.PrintState width
                  (if includeNs
                   then cli.Name workload +:+ "." +:+ cli.Namespace workload
                   else cli.Name workload)
                  (cli.state describeIntercept s workload))
    (cli.printLoop specName describeIntercept s includeNs width workloads).1
    workloads.
Proof.
  revert nameLen0. induction workloads as [|dep rest IH]; intros nameLen0; simpl.
  { intros _. constructor. }
  destruct (decide (cli.Name dep = EmptyString)) as [Hname|Hname].
  - destruct (cli.firstIntercept dep) as [ii|] eqn:Hfirst; simpl; [|done].
    intros Hloop%IH.
    destruct (cli.printLoop specName describeIntercept s includeNs width rest)
      as [out outcome].
    simpl in *. constructor; [|done]. rewrite decide_True by done. by exists ii.
  - intros Hloop%IH.
    destruct (cli.printLoop specName describeIntercept s includeNs width rest)
      as [out outcome].
    simpl in *. constructor; [|done]. by rewrite decide_False.
Qed.

(** X16: [printList] makes no call that writes when it panics: an index
    out of range is met in the loops that only compute, before the first
    call of [Fprintf].  When it returns it has made one call of
    [StructuredStream] in JSON mode and one call of [Fprintln] when there
    is no workload; otherwise it has made exactly one call of [Fprintf]
    for every workload, in the order of the workloads: for a workload
    without name the local-only format with the name of its first
    intercept, and for the others the name with the text of [state],
    which spans several lines of output when the workload has
    intercepts. *)
Theorem printList_panics_before_writing {InterceptInfo AgentInfoT : Type}
    (specName specNamespace : InterceptInfo → string)
    (describeIntercept : InterceptInfo → option string → bool → string)
    (s : cli.listInfo) (workloads : list (@cli.WorkloadInfo InterceptInfo AgentInfoT))
    (isStreamer jsonOut : bool) :
  match (cli.printList specName specNamespace describeIntercept s workloads
           isStreamer jsonOut).2 with
  | cli.Panicked =>
      (cli.printList specName specNamespace describeIntercept s workloads
         isStreamer jsonOut).1 = []
  | cli.Returned =>
      match jsonOut, workloads with
      | true, [] =>
          (cli.printList specName specNamespace describeIntercept s workloads
             isStreamer jsonOut).1 = [cli.StreamNothing]
      | true, _ :: _ =>
          (cli.printList specName specNamespace describeIntercept s workloads
             isStreamer jsonOut).1 = [cli.StreamWorkloads workloads]
      | false, [] =>
          (cli.printList specName specNamespace describeIntercept s workloads
             isStreamer jsonOut).1
          = [cli.Println "No Workloads (Deployments, StatefulSets, or ReplicaSets)"]
      | false, _ :: _ =>
          ∃ (includeNs : bool) (nameLen : nat),
            Forall2
              (λ o workload,
                 if decide (cli.Name workload = EmptyString)
                 then ∃ ii,
                        cli.firstIntercept workload = Some ii
                        ∧ o = cli.PrintLocalOnly nameLen
                                (if includeNs
                                 then specName ii +:+ "." +:+ cli.Namespace workload
                                 else specName ii)
                 else o = cli.PrintState nameLen
                            (if includeNs
                             then cli.Name workload +:+ "." +:+ cli.Namespace workload
                             else cli.Name workload)
                            (cli.state describeIntercept s workload))
              (cli.printList specName specNamespace describeIntercept s workloads
                 isStreamer jsonOut).1
              workloads
      end
  end.
Proof.
  unfold cli.printList. destruct jsonOut, isStreamer; simpl;
    try (by destruct workloads).
  - destruct workloads as [|dep rest]; [done|]. simpl Nat.eqb. cbv iota.
    destruct (cli.includeNsLoop specNamespace (cli.namespace s) (dep :: rest))
      as [includeNs|]; [|done].
    destruct (cli.nameLenLoop specName includeNs 0 (dep :: rest)) as [nameLen|] eqn:Hloop;
      [|done].
    destruct (printLoop_after_nameLenLoop specName describeIntercept
                s includeNs 0 nameLen nameLen (dep :: rest) Hloop) as (-> & _).
    exists includeNs, nameLen. by eapply printLoop_calls.
  - destruct workloads as [|dep rest]; [done|]. simpl Nat.eqb. cbv iota.
    destruct (cli.includeNsLoop specNamespace (cli.namespace s) (dep :: rest))
      as [includeNs|]; [|done].
    destruct (cli.nameLenLoop specName includeNs 0 (dep :: rest)) as [nameLen|] eqn:Hloop;
      [|done].
    destruct (printLoop_after_nameLenLoop specName describeIntercept
                s includeNs 0 nameLen nameLen (dep :: rest) Hloop) as (-> & _).
    exists includeNs, nameLen. by eapply printLoop_calls.
Qed.

(** X17: the lines that [printList] writes for the workloads all have the
    same width argument, no label is longer than this width, and when
    there are lines the longest label has exactly this width. *)
Theorem printList_labels_fit_the_width {InterceptInfo AgentInfoT : Type}
    (specName specNamespace : InterceptInfo → string)
    (describeIntercept : InterceptInfo → option string → bool → string)
    (s : cli.listInfo) (workloads : list (@cli.WorkloadInfo InterceptInfo AgentInfoT))
    (isStreamer jsonOut : bool) :
  ∃ nameLen,
    (∀ o w n,
       o ∈ (cli.printList specName specNamespace describeIntercept s workloads
              isStreamer jsonOut).1 →
       cli.lineLabel o = Some (w, n) →
       w = nameLen ∧ (String.length n ≤ nameLen)%nat)
    ∧ ((∃ o, o ∈ (cli.printList specName specNamespace describeIntercept s workloads
                    isStreamer jsonOut).1
             ∧ is_Some (cli.lineLabel o)) →
       ∃ o n,
         o ∈ (cli.printList specName specNamespace describeIntercept s workloads
                isStreamer jsonOut).1
         ∧ cli.lineLabel o = Some (nameLen, n)
         ∧ String.length n = nameLen).
Proof.
  unfold cli.printList.
  assert (Hnone : ∀ out : list (@cli.Output InterceptInfo AgentInfoT),
            (∀ o, o ∈ out → cli.lineLabel o = None) →
            ∃ nameLen : nat,
              (∀ o w n, o ∈ out → cli.lineLabel o = Some (w, n) →
                        w = nameLen ∧ (String.length n ≤ nameLen)%nat)
              ∧ ((∃ o, o ∈ out ∧ is_Some (cli.lineLabel o)) →
                 ∃ o n, o ∈ out ∧ cli.lineLabel o = Some (nameLen, n)
                        ∧ String.length n = nameLen)).
  { intros out Hout. exists 0%nat. split.
    - intros o w n Hin Hlabel. rewrite (Hout o Hin) in Hlabel. done.
    - intros (o & Hin & [? Hlabel]). rewrite (Hout o Hin) in Hlabel. done. }
  destruct (jsonOut && negb isStreamer).
  { apply Hnone. by intros o ?%elem_of_nil. }
  destruct (length workloads =? 0)%nat.
  { destruct jsonOut; apply Hnone; by intros o ->%list_elem_of_singleton. }
  destruct jsonOut.
  { apply Hnone. by intros o ->%list_elem_of_singleton. }
  destruct (cli.includeNsLoop specNamespace (cli.namespace s) workloads) as [includeNs|].
  2: { apply Hnone. by intros o ?%elem_of_nil. }
  destruct (cli.nameLenLoop specName includeNs 0 workloads) as [nameLen|] eqn:Hloop.
  2: { apply Hnone. by intros o ?%elem_of_nil. }
  destruct (printLoop_after_nameLenLoop specName describeIntercept
              s includeNs 0 nameLen nameLen workloads Hloop)
    as (_ & _ & _ & Hlines & Hmax).
  exists nameLen. split; [done|].
  intros (o & Hin & [[w n] Hlabel]).
  destruct Hmax as [->|Hmax]; [|done].
  exists o, n. destruct (Hlines o w n Hin Hlabel) as [-> Hle].
  split_and!; [done..|lia].
Qed.

Example printList_sample :
  cli.printList fst snd (λ ii _ _, ii.1) (cli.mkListInfo false false true false "default" false)
    sampleWorkloads false false
  = ([cli.PrintState 16 "web.default"
        "ready to intercept (traffic-agent already installed)";
      cli.PrintLocalOnly 16 "local-intercept.";
      cli.PrintState 16 "db.storage"
        "not interceptable (traffic-agent not installed): no service"],
     cli.Returned).
Proof. vm_compute. reflexivity. Qed.

Lemma append_assoc (a b c : string) : (a +:+ b) +:+ c = a +:+ (b +:+ c).
Proof.
  induction a as [|x a IH]; [done|].
  change (String x ((a +:+ b) +:+ c) = String x (a +:+ (b +:+ c))). by rewrite IH.
Qed.

Lemma concat_cons_nonempty (sep x y : string) (l : list string) :
  String.concat sep (x :: y :: l) = x +:+ sep +:+ String.concat sep (y :: l).
Proof. done. Qed.

Section Describe.
Context {InterceptInfo : Type}.
Context (describeIntercept : InterceptInfo → option string → bool → string).

Lemma DescribeIntercepts_loop (iis : list InterceptInfo)
    (volumeMountsPrevented : option string) (debug : bool) (i : nat) (sb : string) :
  (foldl (λ '(i, sb) ii,
            let sb := if (0 <? i)%nat then sb +:+ String "010" EmptyString else sb in
            (S i, sb +:+ describeIntercept ii volumeMountsPrevented debug))
         (i, sb) iis).2
  = match iis with
    | [] => sb
    | _ :: _ =>
        sb +:+ (if (0 <? i)%nat then String "010" EmptyString else EmptyString)
           +:+ String.concat (String "010" EmptyString)
                 ((λ ii, describeIntercept ii volumeMountsPrevented debug) <$> iis)
    end.
Proof.
  revert i sb. induction iis as [|ii rest IH]; intros i sb; [done|].
  simpl foldl. rewrite IH. destruct rest as [|next rest].
  - simpl. destruct (0 <? i)%nat; by rewrite ?append_assoc.
  - rewrite !fmap_cons, concat_cons_nonempty. simpl (0 <? S i)%nat. cbv iota.
    destruct (0 <? i)%nat; by rewrite ?append_assoc.
Qed.

End Describe.

(** X18: [DescribeIntercepts] returns the word [intercepted] followed by
    the descriptions of the intercepts, in their order, with a newline
    between two descriptions and none before the first or after the
    last. *)
Theorem DescribeIntercepts_joins_descriptions {InterceptInfo : Type}
    (describeIntercept : InterceptInfo → option string → bool → string)
    (iis : list InterceptInfo) (volumeMountsPrevented : option string) (debug : bool) :
  cli.DescribeIntercepts describeIntercept iis volumeMountsPrevented debug =
  "intercepted" +:+
  String.concat (String "010" EmptyString)
    ((λ ii, describeIntercept ii volumeMountsPrevented debug) <$> iis).
Proof.
  unfold cli.DescribeIntercepts. rewrite DescribeIntercepts_loop.
  by destruct iis.
Qed.
